(** * my-dashboard: the title classifier, the lot extractor and the cost model

    A shallow embedding of [src/app/page.tsx] (the dashboard page) and of the
    two sibling revisions of the same page kept in the repository
    ([src/unnamed/part_000] and [src/unnamed/part_001]), followed by the
    properties of the classification and costing core.

    Conventions of the embedding:
    - a JavaScript string is the list of its UTF-16 code units ([jsstring]);
    - a JavaScript Number is an IEEE-754 binary64 value, taken from the
      executable specification [SpecFloat] of the Standard Library
      ([prec = 53], [emax = 1024]); every arithmetic operation of the source
      is the correctly rounded operation of that specification;
    - a plain object used as a dictionary is a [gmap string _];
    - [Date | null] is an [option]; a thrown exception is [None] in an
      [option]-valued function. *)

From Stdlib Require Import ZArith NArith Lia Bool List Ascii String.
From Stdlib Require Import SpecFloat Sorted Permutation.
From stdpp Require Import base option list strings gmap.

Local Open Scope string_scope.
Local Open Scope list_scope.
Local Open Scope Z_scope.

(** ** JavaScript values *)

Module JS.

(** *** Strings *)

Definition jsstring := list N.

(** The code units of a literal written in ASCII. *)
Definition str (s : string) : jsstring :=
  map N_of_ascii (list_ascii_of_string s).

(** WhiteSpace and LineTerminator code units: the set that [\s] and
    [String.prototype.trim] use. *)
Definition is_space (c : N) : bool :=
  ((9 <=? c) && (c <=? 13) || (c =? 32) || (c =? 160) || (c =? 5760)
   || (8192 <=? c) && (c <=? 8202) || (c =? 8232) || (c =? 8233)
   || (c =? 8239) || (c =? 8287) || (c =? 12288) || (c =? 65279))%N.

Definition is_digit (c : N) : bool := ((48 <=? c) && (c <=? 57))%N.

Definition is_upper (c : N) : bool := ((65 <=? c) && (c <=? 90))%N.
Definition is_lower (c : N) : bool := ((97 <=? c) && (c <=? 122))%N.

(** [\w] without the unicode flag: [A-Za-z0-9_]. *)
Definition is_word (c : N) : bool :=
  is_upper c || is_lower c || is_digit c || (c =? 95)%N.

Fixpoint trim_start (s : jsstring) : jsstring :=
  match s with
  | c :: s' => if is_space c then trim_start s' else s
  | [] => []
  end.

Definition trim_end (s : jsstring) : jsstring := rev (trim_start (rev s)).

(** [s.trim()] *)
Definition trim (s : jsstring) : jsstring := trim_end (trim_start s).

(** [s.replace(/\s+/g, " ")]: every maximal run of white space becomes one
    space. *)
Fixpoint collapse_ws (s : jsstring) : jsstring :=
  match s with
  | [] => []
  | c :: s' =>
      if is_space c then
        match s' with
        | c' :: _ => if is_space c' then collapse_ws s' else 32%N :: collapse_ws s'
        | [] => [32%N]
        end
      else c :: collapse_ws s'
  end.

(** [s.includes(c)] for a one-character needle. *)
Definition includes_char (c : N) (s : jsstring) : bool :=
  existsb (N.eqb c) s.

(** [parts.join(sep)] *)
Fixpoint join (sep : jsstring) (parts : list jsstring) : jsstring :=
  match parts with
  | [] => []
  | [p] => p
  | p :: ps => p ++ sep ++ join sep ps
  end.

(** [s.split(sep)] for a one-character separator. *)
Fixpoint split_char (sep : N) (s : jsstring) : list jsstring :=
  match s with
  | [] => [[]]
  | c :: s' =>
      if (c =? sep)%N then [] :: split_char sep s'
      else match split_char sep s' with
           | p :: ps => (c :: p) :: ps
           | [] => [[c]]
           end
  end.

(** *** Numbers *)

Definition prec : Z := 53.
Definition emax : Z := 1024.

Abbreviation num := spec_float.

Definition pzero : num := S754_zero false.
Definition NaN : num := S754_nan.
Definition pinf : num := S754_infinity false.

(** The Number nearest to an integer (exact below [2^53]). *)
Definition num_of_Z (z : Z) : num := binary_normalize prec emax z 0 false.

Definition add : num -> num -> num := SFadd prec emax.
Definition sub : num -> num -> num := SFsub prec emax.
Definition mul : num -> num -> num := SFmul prec emax.
Definition div : num -> num -> num := SFdiv prec emax.

(** [x < y], [x <= y], [x > y], [x >= y], [x === y] on Numbers. *)
Definition lt (x y : num) : bool := SFltb x y.
Definition le (x y : num) : bool := SFleb x y.
Definition gt (x y : num) : bool := SFltb y x.
Definition ge (x y : num) : bool := SFleb y x.
Definition eqn (x y : num) : bool := SFeqb x y.

(** [Number.isFinite(x)] for a Number [x]. *)
Definition isFinite (x : num) : bool :=
  match x with
  | S754_zero _ | S754_finite _ _ _ => true
  | S754_infinity _ | S754_nan => false
  end.

(** ToBoolean of a Number: [+0], [-0] and [NaN] are falsy. *)
Definition truthy (x : num) : bool :=
  match x with
  | S754_zero _ | S754_nan => false
  | S754_infinity _ | S754_finite _ _ _ => true
  end.

(** [x || 0] *)
Definition or_zero (x : num) : num := if truthy x then x else pzero.

(** The Number nearest to [m * 10^e10] (round to nearest, ties to even): the
    value of a decimal literal with digits [m] and decimal exponent [e10]. *)
Definition dec_value (m : N) (e10 : Z) : num :=
  match m with
  | N0 => pzero
  | Npos p =>
      if 0 <=? e10 then num_of_Z (Zpos p * 10 ^ e10)
      else div (S754_finite false p 0)
               (S754_finite false (Z.to_pos (10 ^ (- e10))) 0)
  end.

(** The integer with the given decimal digits (most significant first). *)
Definition digits_value (base : N) (ds : list N) : N :=
  fold_left (fun acc d => (acc * base + d)%N) ds 0%N.

Definition digit_of (c : N) : N := (c - 48)%N.

(** Splits the longest prefix satisfying [p]. *)
Fixpoint span (p : N -> bool) (s : jsstring) : jsstring * jsstring :=
  match s with
  | c :: s' => if p c then let '(a, b) := span p s' in (c :: a, b) else ([], s)
  | [] => ([], [])
  end.

(** ExponentPart_opt followed by the end of the literal: the decimal
    exponent, or [None] when the text is not of that form. *)
Definition parse_exponent (s : jsstring) : option Z :=
  match s with
  | [] => Some 0
  | c :: r =>
      if (c =? 101)%N || (c =? 69)%N then
        let '(sg, r') :=
          match r with
          | 43%N :: r' => (1, r')
          | 45%N :: r' => (-1, r')
          | _ => (1, r)
          end in
        let '(ds, rest) := span is_digit r' in
        match ds, rest with
        | _ :: _, [] => Some (sg * Z.of_N (digits_value 10 (map digit_of ds)))
        | _, _ => None
        end
      else None
  end.

(** StrUnsignedDecimalLiteral *)
Definition parse_unsigned (s : jsstring) : num :=
  if decide (s = str "Infinity") then pinf
  else
    let '(ip, r) := span is_digit s in
    let '(fp, r') :=
      match r with
      | 46%N :: r1 => span is_digit r1
      | _ => ([], r)
      end in
    match ip, fp with
    | [], [] => NaN
    | _, _ =>
        match parse_exponent r' with
        | Some e =>
            dec_value (digits_value 10 (map digit_of (ip ++ fp)))
                      (e - Z.of_nat (length fp))
        | None => NaN
        end
    end.

Definition hex_digit (c : N) : option N :=
  if is_digit c then Some (c - 48)%N
  else if ((97 <=? c) && (c <=? 102))%N then Some (c - 87)%N
  else if ((65 <=? c) && (c <=? 70))%N then Some (c - 55)%N
  else None.

Definition radix_digit (base : N) (c : N) : option N :=
  match hex_digit c with
  | Some d => if (d <? base)%N then Some d else None
  | None => None
  end.

(** NonDecimalIntegerLiteral: [0x], [0o] and [0b] literals. *)
Definition parse_nondecimal (s : jsstring) : option num :=
  match s with
  | 48%N :: p :: ds =>
      let base : option N :=
        if (p =? 120)%N || (p =? 88)%N then Some 16%N
        else if (p =? 111)%N || (p =? 79)%N then Some 8%N
        else if (p =? 98)%N || (p =? 66)%N then Some 2%N
        else None in
      match base, ds with
      | Some b, _ :: _ =>
          match mapM (radix_digit b) ds with
          | Some vs => Some (num_of_Z (Z.of_N (digits_value b vs)))
          | None => None
          end
      | _, _ => None
      end
  | _ => None
  end.

(** [Number(s)] for a string [s] (StringToNumber). *)
Definition StringToNumber (s : jsstring) : num :=
  let t := trim s in
  match t with
  | [] => pzero
  | c :: r =>
      match parse_nondecimal t with
      | Some n => n
      | None =>
          if (c =? 43)%N then parse_unsigned r
          else if (c =? 45)%N then SFopp (parse_unsigned r)
          else parse_unsigned t
      end
  end.

(** The integer part [floor(m * 2^e)] of a finite Number. *)
Definition floorZ (s : bool) (m : positive) (e : Z) : Z :=
  let v := if s then Zneg m else Zpos m in
  if 0 <=? e then v * 2 ^ e else v / 2 ^ (- e).

(** [Math.floor(x)] *)
Definition Math_floor (x : num) : num :=
  match x with
  | S754_finite s m e =>
      if 0 <=? e then x
      else binary_normalize prec emax (floorZ s m e) 0 s
  | _ => x
  end.

(** [Math.round(x)]: the nearest integer, ties towards [+Infinity]; the
    sign of a zero result is the sign of [x]. *)
Definition Math_round (x : num) : num :=
  match x with
  | S754_finite s m e =>
      if 0 <=? e then x
      else
        let v := if s then Zneg m else Zpos m in
        binary_normalize prec emax ((2 * v + 2 ^ (- e)) / (2 * 2 ^ (- e))) 0 s
  | _ => x
  end.

(** [Math.max(x, y)] and [Math.min(x, y)]: [NaN] if an argument is [NaN];
    [+0] is larger than [-0]. *)
Definition Math_max (x y : num) : num :=
  match SFcompare x y with
  | None => NaN
  | Some Lt => y
  | Some Gt => x
  | Some Eq => match x with S754_zero true => y | _ => x end
  end.

Definition Math_min (x y : num) : num :=
  match SFcompare x y with
  | None => NaN
  | Some Lt => x
  | Some Gt => y
  | Some Eq => match x with S754_zero false => y | _ => x end
  end.

(** *** Arrays *)

(** The array index that a Number used as a property key denotes: only a
    non-negative integer value names an element. *)
Definition array_index (x : num) : option nat :=
  match x with
  | S754_zero _ => Some 0%nat
  | S754_finite false m e =>
      if 0 <=? e then Some (Z.to_nat (Zpos m * 2 ^ e))
      else if Zpos m mod 2 ^ (- e) =? 0 then Some (Z.to_nat (Zpos m / 2 ^ (- e)))
      else None
  | _ => None
  end.

(** [a[i]] read as a Number: a missing element is [undefined], which
    arithmetic turns into [NaN]. *)
Definition elt (a : list num) (i : nat) : num := default NaN (a !! i).

(** [a.sort(comparefn)].  The language fixes the result only when
    [comparefn] is a consistent comparator for the elements: the result is
    then the stable arrangement in which no element sorts after a later
    one.  Insertion from the right computes that arrangement.  A comparator
    result counts as "after" when it is greater than zero; [NaN] counts as
    [+0]. *)
Section Sort.
Variable comparefn : num -> num -> num.

Definition sorts_after (x y : num) : bool := gt (comparefn x y) pzero.

Fixpoint insert_sorted (x : num) (l : list num) : list num :=
  match l with
  | [] => [x]
  | y :: l' => if sorts_after x y then y :: insert_sorted x l' else x :: l
  end.

Definition Array_sort (l : list num) : list num := foldr insert_sorted [] l.
End Sort.

(** *** Regular expressions

    The fragment of ECMAScript patterns that the page uses, with the
    backtracking semantics of the language: a matcher takes a continuation
    and returns the first successful state in priority order.  All patterns
    of the page carry the [i] flag and none carries [u]; their pattern
    characters are ASCII, for which case-insensitive comparison identifies
    exactly a letter and its other case. *)

Inductive regex : Type :=
| Eps                          (* the empty pattern *)
| Chr (c : N)                  (* a pattern character, under the [i] flag *)
| Cls (p : N -> bool)          (* a class escape or bracket class *)
| WordB                        (* [\b] *)
| Seq (r1 r2 : regex)
| Star (p : N -> bool)         (* greedy [*] on a class *)
| Opt (r : regex)              (* greedy [?] *)
| Grp (i : nat) (r : regex).   (* the i-th capturing group *)

Record mstate : Type := MState {
  before : list N;             (* the consumed input, last unit first *)
  after : list N;              (* the remaining input *)
  caps : list (nat * jsstring) (* the captures, latest first *)
}.

Definition to_upper (c : N) : N := if is_lower c then (c - 32)%N else c.

Definition chr_eqb (c x : N) : bool := (to_upper x =? to_upper c)%N.

Definition at_boundary (s : mstate) : bool :=
  xorb (match before s with c :: _ => is_word c | [] => false end)
       (match after s with c :: _ => is_word c | [] => false end).

Fixpoint star_match (p : N -> bool) (k : mstate -> option mstate)
    (bef aft : list N) (cs : list (nat * jsstring)) : option mstate :=
  match aft with
  | c :: aft' =>
      if p c then
        match star_match p k (c :: bef) aft' cs with
        | Some r => Some r
        | None => k (MState bef aft cs)
        end
      else k (MState bef aft cs)
  | [] => k (MState bef aft cs)
  end.

Fixpoint rmatch (r : regex) (k : mstate -> option mstate) (s : mstate)
    : option mstate :=
  match r with
  | Eps => k s
  | Chr c =>
      match after s with
      | x :: aft' =>
          if chr_eqb c x then k (MState (x :: before s) aft' (caps s)) else None
      | [] => None
      end
  | Cls p =>
      match after s with
      | x :: aft' =>
          if p x then k (MState (x :: before s) aft' (caps s)) else None
      | [] => None
      end
  | WordB => if at_boundary s then k s else None
  | Seq r1 r2 => rmatch r1 (rmatch r2 k) s
  | Star p => star_match p k (before s) (after s) (caps s)
  | Opt r1 =>
      match rmatch r1 (fun s' =>
                if (length (after s') =? length (after s))%nat then None
                else k s') s with
      | Some res => Some res
      | None => k s
      end
  | Grp i r1 =>
      rmatch r1 (fun s' =>
        k (MState (before s') (after s')
             ((i, take (length (after s) - length (after s')) (after s))
                :: caps s'))) s
  end.

(** The leftmost match, scanning the start position from [bef|aft]. *)
Fixpoint exec_from (r : regex) (bef aft : list N) {struct aft}
    : option mstate :=
  match rmatch r Some (MState bef aft []) with
  | Some s => Some s
  | None =>
      match aft with
      | c :: aft' => exec_from r (c :: bef) aft'
      | [] => None
      end
  end.

(** [s.match(re)] for a pattern without the [g] flag. *)
Definition exec (r : regex) (s : jsstring) : option mstate :=
  exec_from r [] s.

(** [re.test(s)] *)
Definition test (r : regex) (s : jsstring) : bool :=
  match exec r s with Some _ => true | None => false end.

(** [m[i]] *)
Definition group (i : nat) (m : mstate) : option jsstring :=
  snd <$> find (fun c => (fst c =? i)%nat) (caps m).

Definition cat (rs : list regex) : regex := foldr Seq Eps rs.
Definition lit (s : string) : regex := cat (map Chr (str s)).
(** [\bword\b] *)
Definition word (s : string) : regex := cat [WordB; lit s; WordB].

End JS.

Import JS.

(** ** [src/app/page.tsx] *)

Module PageTsx.

(** A numeric literal of the source, written as digits and decimal exponent:
    [0.7] is [dec 7 (-1)]. *)
Definition dec (m : N) (e10 : Z) : num := dec_value m e10.

Record Row : Type := mkRow {
  sku : jsstring;
  name : jsstring;
  category : jsstring;
  payoutStatus : jsstring;
  soldQty : num;
  gmvUsd : num;
  payoutCny : num;
  paidAt : option Z;      (* time value in ms; [None] is [null] *)
  payoutAt : option Z;
  titleGroup : string
}.

Definition COST_DEFAULTS : gmap string num :=
  list_to_map [
    ("AR/CHR", dec 2 0);
    ("Ball Holo", dec 2 (-1));
    ("Japanese", dec 5 (-1));
    ("KFC Pack", dec 3 0);
    ("Logo Reverse Holo", dec 1 0);
    ("Master Ball", dec 7 (-1));
    ("Mix", dec 2 (-1));
    ("OCD", dec 14 0);
    ("RR Only", dec 4 (-1));
    ("RR+RRR", dec 6 (-1));
    ("RRR+VMAX", dec 7 (-1));
    ("SR/HR", dec 3 0);
    ("Sealed", dec 0 0);
    ("TAG TEAM", dec 0 0);
    ("Trainer Item / Supporter", dec 0 0);
    ("V/VMAX/VSTAR", dec 0 0);
    ("VSTAR Universe", dec 0 0);
    ("VSTAR Universe (Sealed)", dec 0 0);
    ("VSTAR Universe (Singles)", dec 0 0);
    ("VSTAR Universe (Lots)", dec 0 0);
    ("VSTAR Universe (Master Ball)", dec 7 (-1));
    ("VSTAR Universe (AR/CHR)", dec 2 0);
    ("VSTAR Universe (SR/HR)", dec 3 0);
    ("Other", dec 0 0)
  ].

(** *** hashStr and rowId *)

(** [Math.imul(a, b)], on the unsigned representatives of the 32-bit words. *)
Definition imul (a b : Z) : Z := (a * b) mod 2 ^ 32.

Definition digit36 (d : Z) : ascii :=
  ascii_of_N (Z.to_N (if d <? 10 then 48 + d else 87 + d)).

(** [n.toString(36)] for [0 <= n < 36 ^ fuel]. *)
Fixpoint toString36 (fuel : nat) (n : Z) (acc : string) : string :=
  match fuel with
  | O => acc
  | S fuel' =>
      let acc' := String (digit36 (n mod 36)) acc in
      if n / 36 =? 0 then acc' else toString36 fuel' (n / 36) acc'
  end.

(** FNV-1a over the code units, folded to an unsigned 32-bit word.  [h] is
    kept as the unsigned representative of the int32 the source holds;
    [^] and [Math.imul] agree on representatives, and [h >>> 0] is the
    unsigned one. *)
Definition hashStr (s : jsstring) : string :=
  let h := fold_left (fun h c => imul (Z.lxor h (Z.of_N c mod 2 ^ 32)) 16777619)
                     s 2166136261 in
  toString36 7 h "".

Section WithDates.
(** [Date.prototype.toISOString] on a valid time value. *)
Variable toISOString : Z -> jsstring.

Definition rowId (r : Row) : string :=
  hashStr (join (str "|")
    [ sku r; name r;
      match paidAt r with Some d => toISOString d | None => [] end;
      match payoutAt r with Some d => toISOString d | None => [] end ]).
End WithDates.

(** *** classifyTitleGroup *)

Record features : Type := mkFeatures {
  kfc : bool; sealed : bool; tagTeam : bool; trainer : bool; ocd : bool;
  masterBall : bool; logoReverse : bool; ballHolo : bool; mix : bool;
  ar : bool; chr : bool; sr : bool; hr : bool;
  rrr : bool; rr : bool; vmax : bool;
  japanese : bool;
  otherRarity : bool
}.

Definition re_tagTeam : regex :=
  cat [WordB; lit "tag"; Star is_space; lit "team"; WordB].
Definition re_masterBall : regex :=
  cat [WordB; lit "master"; Star is_space; lit "ball"; WordB].

(** The object [has] of the source. *)
Definition extract (t : jsstring) : features := {|
  kfc := test (word "kfc") t;
  sealed := test (word "sealed") t;
  tagTeam := test re_tagTeam t;
  trainer := test (word "trainer") t || test (word "supporter") t
             || test (word "item") t;
  ocd := test (word "ocd") t;
  masterBall := test re_masterBall t;
  logoReverse := test (word "logo") t && test (word "reverse") t;
  ballHolo := test (word "ball") t && test (word "holo") t;
  mix := test (word "mix") t;
  ar := test (word "ar") t;
  chr := test (word "chr") t;
  sr := test (word "sr") t;
  hr := test (word "hr") t;
  rrr := test (word "rrr") t;
  rr := test (word "rr") t;
  vmax := test (word "vmax") t;
  japanese := test (word "japanese") t;
  otherRarity :=
    test (word "rrrr") t || test (word "ur") t || test (word "ssr") t
    || test (word "sar") t || test (word "csr") t || test (word "ace") t
    || test (word "ex") t || test (word "gold") t || test (word "secret") t
|}.

(** The array [rules]: each rule is its name and the value of its test. *)
Definition rules (has : features) : list (string * bool) := [
  ("KFC Pack", kfc has);
  ("Sealed", sealed has);
  ("TAG TEAM", tagTeam has);
  ("Trainer Item / Supporter", trainer has);
  ("OCD", ocd has);
  ("Master Ball", masterBall has);
  ("Logo Reverse Holo", logoReverse has);
  ("Ball Holo", ballHolo has);
  ("Mix", mix has);
  ("AR/CHR", ar has || chr has);
  ("SR/HR", (sr has || hr has) && negb (ocd has));
  ("Japanese", japanese has);
  ("RRR+VMAX", rrr has && vmax has && negb (rr has) && negb (otherRarity has));
  ("RR+RRR", rr has && rrr has && negb (otherRarity has));
  ("RR Only", rr has && negb (rrr has) && negb (otherRarity has))
].

(** [(title || "").replace(/\s+/g, " ").trim()] *)
Definition normalize (title : jsstring) : jsstring := trim (collapse_ws title).

(** [for (const r of rules) if (r.test(t)) return r.name; return "Other"] *)
Fixpoint first_match (rs : list (string * bool)) : string :=
  match rs with
  | (n, b) :: rs' => if b then n else first_match rs'
  | [] => "Other"
  end.

Definition classifyTitleGroup (title : jsstring) : string :=
  let t := normalize title in
  first_match (rules (extract t)).

(** *** parseLotCountFromTitle *)

(** [\d+(?:\.\d{1,2})?] inside the capturing group 1. *)
Definition re_numeral : regex :=
  Grp 1 (cat [Cls is_digit; Star is_digit;
              Opt (cat [Chr 46; Cls is_digit; Opt (Cls is_digit)])]).

(** [/\b(\d+(?:\.\d{1,2})?)\s*lot\b/i] *)
Definition re_lot_leading : regex :=
  cat [WordB; re_numeral; Star is_space; lit "lot"; WordB].

(** [/\blot\s*(\d+(?:\.\d{1,2})?)\b/i] *)
Definition re_lot_trailing : regex :=
  cat [WordB; lit "lot"; Star is_space; re_numeral; WordB].

Definition parseLotCountFromTitle (title : jsstring) : num :=
  let t := normalize title in
  let m := match exec re_lot_leading t with
           | Some m => Some m
           | None => exec re_lot_trailing t
           end in
  match m ≫= group 1 with
  | None => dec 1 0
  | Some raw =>
      let n := StringToNumber raw in
      if negb (isFinite n) || le n (dec 0 0) then dec 1 0
      else
        let scaled := Math_round (mul n (dec 100 0)) in
        if includes_char 46 raw && lt n (dec 10 0)
           && (ge scaled (dec 10 0) && le scaled (dec 5000 0))
        then scaled
        else Math_round n
  end.

(** *** toNumber *)

(** A cell of the sheet as [toNumber] distinguishes them.  A value of
    another kind (boolean, Date) is represented by [Str] of its [String(v)]. *)
Inductive cell : Type :=
| Null
| Undefined
| Num (x : num)
| Str (s : jsstring).

(** [s.replace(/,/g, "")] *)
Definition remove_commas (s : jsstring) : jsstring :=
  List.filter (fun c => negb (c =? 44)%N) s.

Definition toNumber (v : cell) : num :=
  match v with
  | Null | Undefined => dec 0 0
  | Num x => if isFinite x then x else dec 0 0
  | Str v =>
      let s := remove_commas (trim v) in
      match s with
      | [] => dec 0 0
      | _ => let n := StringToNumber s in
             if isFinite n then n else dec 0 0
      end
  end.

(** *** Dates and filterByDate *)

(** A Date object: its time value, [None] for an Invalid Date. *)
Definition Date : Type := option Z.

(** [a < b] between a valid time value and a Date. *)
Definition before_date (a : Z) (b : Date) : bool :=
  match b with Some t => a <? t | None => false end.
Definition after_date (a : Z) (b : Date) : bool :=
  match b with Some t => t <? a | None => false end.

Section LocalTime.
(** The local-time services of the host: [new Date(y, m, d, H, M, S, ms)]
    and the local calendar fields of a Date ([NaN] for an Invalid Date). *)
Variable localDate : num -> num -> num -> num -> num -> num -> num -> Date.
Variables getFullYear getMonth getDate : Date -> num.

(** [null] is [None]. *)
Definition parseYmd (ymd : jsstring) : option Date :=
  match ymd with
  | [] => None
  | _ =>
      match map StringToNumber (split_char 45 ymd) with
      | y :: m :: d :: _ =>
          if negb (truthy y) || negb (truthy m) || negb (truthy d) then None
          else Some (localDate y (sub m (dec 1 0)) d
                       (dec 0 0) (dec 0 0) (dec 0 0) (dec 0 0))
      | _ => None
      end
  end.

Definition endOfDay (d : Date) : Date :=
  localDate (getFullYear d) (getMonth d) (getDate d)
            (dec 23 0) (dec 59 0) (dec 59 0) (dec 999 0).

(** The callback of [input.filter]: the date must be present, not before
    [start] and not after [end] (a [null] bound does not constrain). *)
Definition in_window (start end_ : option Date) (dt : option Z) : bool :=
  match dt with
  | None => false
  | Some dt =>
      negb (match start with Some s => before_date dt s | None => false end)
      && negb (match end_ with Some e => after_date dt e | None => false end)
  end.

(** The outer [option] is the completion: [endOfDay(parseYmd(endYmd)!)]
    throws a TypeError when [endYmd] is not empty and [parseYmd] gives
    [null]. *)
Definition filterByDate (input : list Row) (getDt : Row -> option Z)
    (startYmd endYmd : jsstring) : option (list Row) :=
  let start := parseYmd startYmd in
  end_ ← match endYmd with
         | [] => Some None
         | _ => match parseYmd endYmd with
                | Some d => Some (Some (endOfDay d))
                | None => None
                end
         end;
  match start, end_ with
  | None, None => Some input
  | _, _ => Some (List.filter (fun r => in_window start end_ (getDt r)) input)
  end.
End LocalTime.

(** *** median and percentile *)

(** [(x, y) => x - y] *)
Definition ascending (x y : num) : num := sub x y.

Definition median (arr : list num) : num :=
  match arr with
  | [] => dec 0 0
  | _ =>
      let a := Array_sort ascending arr in
      let mid := (length a / 2)%nat in
      if Nat.even (length a)
      then div (add (elt a (mid - 1)) (elt a mid)) (dec 2 0)
      else elt a mid
  end.

(** [Math.min(n - 1, Math.max(0, Math.floor((n - 1) * p)))] *)
Definition percentile_idx (n : nat) (p : num) : num :=
  let last := num_of_Z (Z.of_nat n - 1) in
  Math_min last (Math_max (dec 0 0) (Math_floor (mul last p))).

(** [None] is [undefined]. *)
Definition percentile (arr : list num) (p : num) : option num :=
  match arr with
  | [] => Some (dec 0 0)
  | _ =>
      let a := Array_sort ascending arr in
      i ← array_index (percentile_idx (length a) p);
      a !! i
  end.

(** *** useLocalStorageState *)

(** The state once the mount effect has run: [JSON.parse(raw)] when the
    storage holds an item that parses ([stored = Some _]), the initial value
    otherwise ([raw] is [null] or empty, or [JSON.parse] throws and the
    exception is swallowed). *)
Definition useLocalStorageState {T : Type} (initial : T) (stored : option T)
    : T :=
  match stored with
  | Some v => v
  | None => initial
  end.

(** *** The page: cost model and KPI *)

Record FiltersState : Type := mkFilters {
  paidStartYmd : jsstring;
  paidEndYmd : jsstring;
  payoutStartYmd : jsstring;
  payoutEndYmd : jsstring
}.

Record KPI : Type := mkKPI {
  baseCount : nat;
  listCount : nat;
  kpi_gmvUsd : num;
  kpi_payoutCny : num;
  totalCost : num;
  totalProfit : num;
  margin : num
}.

Section Page.
Variable toISOString : Z -> jsstring.
Variable localDate : num -> num -> num -> num -> num -> num -> num -> Date.
Variables getFullYear getMonth getDate : Date -> num.

(** The two dictionaries of the page.  Their values are Numbers; a stored
    value of another kind fails [Number.isFinite] exactly as [NaN] does and
    is read nowhere else. *)
Variable costMap : gmap string num.
Variable rowCostOverride : gmap string num.

(** [Number.isFinite(d[k]) ? Number(d[k]) : other] *)
Definition finite_or (d : gmap string num) (k : string) (other : num) : num :=
  match d !! k with
  | Some v => if isFinite v then v else other
  | None => other
  end.

Definition lotCountOf (r : Row) : num := parseLotCountFromTitle (name r).
Definition costPerLotOfGroup (g : string) : num := finite_or costMap g (dec 0 0).
Definition costPerLotForRow (r : Row) : num :=
  let id := rowId toISOString r in
  finite_or rowCostOverride id (costPerLotOfGroup (titleGroup r)).
Definition totalCostOf (r : Row) : num := mul (costPerLotForRow r) (lotCountOf r).
Definition totalCostOfDefault (r : Row) : num :=
  mul (costPerLotOfGroup (titleGroup r)) (lotCountOf r).
Definition profitOf (r : Row) : num :=
  if truthy (payoutCny r) then sub (payoutCny r) (totalCostOf r) else dec 0 0.
Definition profitOfDefault (r : Row) : num :=
  if truthy (payoutCny r) then sub (payoutCny r) (totalCostOfDefault r)
  else dec 0 0.

(** [rows.reduce((s, r) => s + f(r), 0)] *)
Definition sum_by (f : Row -> num) (rows : list Row) : num :=
  fold_left (fun s r => add s (f r)) rows (dec 0 0).

Definition paidRows (baseRows : list Row) (f : FiltersState) :=
  filterByDate localDate getFullYear getMonth getDate
    baseRows paidAt (paidStartYmd f) (paidEndYmd f).

Definition payoutRows (baseRows : list Row) (f : FiltersState) :=
  filterByDate localDate getFullYear getMonth getDate
    baseRows payoutAt (payoutStartYmd f) (payoutEndYmd f).

Definition listRows (baseRows : list Row) (f : FiltersState) :=
  out ← filterByDate localDate getFullYear getMonth getDate
          baseRows paidAt (paidStartYmd f) (paidEndYmd f);
  filterByDate localDate getFullYear getMonth getDate
    out payoutAt (payoutStartYmd f) (payoutEndYmd f).

(** The [kpi] memo of one render; [None] when the render throws. *)
Definition kpi (baseRows : list Row) (f : FiltersState) : option KPI :=
  paid ← paidRows baseRows f;
  payout ← payoutRows baseRows f;
  list ← listRows baseRows f;
  let gmv := sum_by (fun r => or_zero (gmvUsd r)) paid in
  let payoutSum := sum_by (fun r => or_zero (payoutCny r)) payout in
  let cost := sum_by (fun r => if truthy (payoutCny r) then totalCostOf r
                               else dec 0 0) payout in
  let profit := sum_by profitOf payout in
  Some {| baseCount := length baseRows;
          listCount := length list;
          kpi_gmvUsd := gmv;
          kpi_payoutCny := payoutSum;
          totalCost := cost;
          totalProfit := profit;
          margin := if gt payoutSum (dec 0 0) then div profit payoutSum
                    else dec 0 0 |}.
End Page.

(** The cost table of the page after load:
    [useLocalStorageState(LS_COST_MAP_KEY, { ...COST_DEFAULTS })]. *)
Definition costMap_loaded (stored : option (gmap string num))
    : gmap string num :=
  useLocalStorageState COST_DEFAULTS stored.

End PageTsx.

(** ** [src/unnamed/part_000]: the sibling revision of the page *)

Module Part000.

Import PageTsx.

Definition COST_DEFAULTS : gmap string num :=
  list_to_map [
    ("AR/CHR", dec 2 0);
    ("Ball Holo", dec 2 (-1));
    ("Japanese", dec 5 (-1));
    ("KFC Pack", dec 3 0);
    ("Logo Reverse Holo", dec 1 0);
    ("Master Ball", dec 7 (-1));
    ("Mix", dec 2 (-1));
    ("OCD", dec 14 0);
    ("RR Only", dec 4 (-1));
    ("RR+RRR", dec 6 (-1));
    ("RRR+VMAX", dec 7 (-1));
    ("SR/HR", dec 3 0);
    ("Sealed", dec 0 0);
    ("TAG TEAM", dec 0 0);
    ("Other", dec 0 0)
  ].

(** [/\bpack(s)?\b/i] *)
Definition re_packs : regex :=
  cat [WordB; lit "pack"; Opt (Grp 1 (lit "s")); WordB].
(** [/tag\s*team/i], [/master\s*ball/i], [/logo\s*reverse\s*holo/i],
    [/ball\s*holo/i]: no word boundaries in this revision. *)
Definition re_tagTeam : regex := cat [lit "tag"; Star is_space; lit "team"].
Definition re_masterBall : regex :=
  cat [lit "master"; Star is_space; lit "ball"].
Definition re_logoReverseHolo : regex :=
  cat [lit "logo"; Star is_space; lit "reverse"; Star is_space; lit "holo"].
Definition re_ballHolo : regex := cat [lit "ball"; Star is_space; lit "holo"].

Definition classifyTitleGroup (title : jsstring) : string :=
  let t := normalize title in
  let hasKfcPack := test (word "kfc") t && test re_packs t in
  let hasOcd := test (word "ocd") t in
  let hasTagTeam := test re_tagTeam t in
  let hasSealed := test (word "sealed") t in
  let hasMasterBall := test re_masterBall t in
  let hasLogoReverseHolo := test re_logoReverseHolo t in
  let hasBallHolo := test re_ballHolo t in
  let hasMix := test (word "mix") t in
  let hasAR := test (word "ar") t in
  let hasCHR := test (word "chr") t in
  let hasSR := test (word "sr") t in
  let hasHR := test (word "hr") t in
  let hasRRR := test (word "rrr") t in
  let hasRR := test (word "rr") t in
  let hasVMAX := test (word "vmax") t in
  let isJapanese := test (word "japanese") t in
  let hasOtherRarity :=
    test (word "rrrr") t || test (word "ur") t || test (word "ssr") t
    || hasSR || hasHR || hasAR || hasCHR || hasTagTeam in
  if hasKfcPack then "KFC Pack"
  else if hasOcd then "OCD"
  else if hasTagTeam then "TAG TEAM"
  else if hasSealed then "Sealed"
  else if hasMasterBall then "Master Ball"
  else if hasLogoReverseHolo then "Logo Reverse Holo"
  else if hasBallHolo then "Ball Holo"
  else if hasMix then "Mix"
  else if hasAR || hasCHR then "AR/CHR"
  else if (hasSR || hasHR) && negb hasOcd then "SR/HR"
  else if isJapanese then "Japanese"
  else if hasRRR && hasVMAX && negb hasRR && negb hasOtherRarity then "RRR+VMAX"
  else if hasRR && hasRRR && negb hasOtherRarity then "RR+RRR"
  else if hasRR && negb hasRRR && negb hasOtherRarity then "RR Only"
  else "Other".

(** [s.replace(/[^\d.-]/g, "")] *)
Definition keep_numeric (s : jsstring) : jsstring :=
  List.filter (fun c => is_digit c || (c =? 46)%N || (c =? 45)%N) s.

Definition toNumber (v : cell) : num :=
  match v with
  | Null | Undefined | Str [] => dec 0 0
  | Num x => if isFinite x then x else dec 0 0
  | Str v =>
      let s := keep_numeric (remove_commas v) in
      let n := StringToNumber s in
      if isFinite n then n else dec 0 0
  end.

(** The initial cost table of this revision:
    [raw ? { ...COST_DEFAULTS, ...JSON.parse(raw) } : COST_DEFAULTS];
    [stored] is the parsed document, [None] when there is none or parsing
    throws.  In the union the left operand wins, as the later spread does. *)
Definition costMap_loaded (stored : option (gmap string num))
    : gmap string num :=
  match stored with
  | Some doc => doc ∪ COST_DEFAULTS
  | None => COST_DEFAULTS
  end.

End Part000.

Import PageTsx.

(** ** [src/app/page.tsx]: the handlers that edit the two cost tables *)

Module PageEdit.

(** [OrdersTable]: the [onChange] handler of the cost input of the row with
    identifier [id], applied to the previous override table; [v] is
    [e.target.value]. *)
Definition onOverrideChange (id : string) (v : jsstring)
    (prev : gmap string num) : gmap string num :=
  match v with
  | [] => delete id prev
  | _ => if negb (isFinite (StringToNumber v)) then delete id prev
         else <[id := StringToNumber v]> prev
  end.

(** [OrdersTable]: the button that restores the default of one row. *)
Definition onOverrideRestore (id : string) (prev : gmap string num)
    : gmap string num :=
  delete id prev.

(** [CostsPanel]: the button that clears every override; it does nothing
    when there is none. *)
Definition onClearOverrides (prev : gmap string num) : gmap string num :=
  if decide (size prev = 0%nat) then prev else ∅.

(** [CostsPanel]: the [onChange] handler of the input of category [g]. *)
Definition onCostChange (g : string) (v : jsstring) (prev : gmap string num)
    : gmap string num :=
  let n := StringToNumber v in
  <[g := if isFinite n then n else dec 0 0]> prev.

(** One user edit of the two tables. *)
Inductive edit : Type :=
| EditOverride (id : string) (v : jsstring)
| RestoreOverride (id : string)
| ClearOverrides
| EditCost (g : string) (v : jsstring).

(** The tables [(costMap, rowCostOverride)] after an edit. *)
Definition apply_edit (st : gmap string num * gmap string num) (e : edit)
    : gmap string num * gmap string num :=
  match e with
  | EditOverride id v => (st.1, onOverrideChange id v st.2)
  | RestoreOverride id => (st.1, onOverrideRestore id st.2)
  | ClearOverrides => (st.1, onClearOverrides st.2)
  | EditCost g v => (onCostChange g v st.1, st.2)
  end.

End PageEdit.

(** ** [src/app/page.tsx]: exportRowsToCSV *)

Module PageExport.





End PageExport.

(** ** [src/app/page.tsx]: normHeader and pickKey *)

Module PageHeaders.

(** The brackets that [normHeader] removes: ASCII and full-width
    parentheses. *)
Definition is_bracket (c : N) : bool :=
  ((c =? 40) || (c =? 41) || (c =? 65288) || (c =? 65289))%N.

(** A global replace of one code unit by a text. *)
Definition replace_char (c : N) (by_ : jsstring) (s : jsstring) : jsstring :=
  flat_map (fun x => if (x =? c)%N then by_ else [x]) s.

(** Trim, remove white space, remove brackets, write the dollar sign as
    USD and the yen sign as CNY. *)
Definition normHeader (h : jsstring) : jsstring :=
  replace_char 165 (str "CNY")
    (replace_char 36 (str "USD")
       (List.filter (fun c => negb (is_bracket c))
          (List.filter (fun c => negb (is_space c)) (trim h)))).

(** The map [normKeys]: a later key replaces an earlier one with the same
    normalized header. *)
Definition normKeys (keys : list jsstring) : gmap jsstring jsstring :=
  fold_left (fun m k => <[normHeader k := k]> m) keys ∅.

(** The loop over the candidates; the empty key is falsy. *)
Fixpoint pick (m : gmap jsstring jsstring) (candidates : list jsstring)
    : jsstring :=
  match candidates with
  | [] => []
  | c :: cs =>
      match m !! normHeader c with
      | Some (x :: k) => x :: k
      | _ => pick m cs
      end
  end.

(** [pickKey(r, candidates)], with [keys] the list [Object.keys(r)]. *)
Definition pickKey (keys candidates : list jsstring) : jsstring :=
  pick (normKeys keys) candidates.

End PageHeaders.

(** ** [src/app/page.tsx]: filtersReducer *)

Module PageFilters.

(** The whole filter state of the page. *)
Record FiltersState : Type := mkState {
  status : jsstring; category : jsstring; group : jsstring; q : jsstring;
  paidStartYmd : jsstring; paidEndYmd : jsstring;
  payoutStartYmd : jsstring; payoutEndYmd : jsstring;
  sortKey : jsstring; sortDir : jsstring;
  page : num; pageSize : num
}.

(** The keys of the state that hold a text, and those that hold a Number. *)
Inductive text_key : Type :=
| k_status | k_category | k_group | k_q
| k_paidStartYmd | k_paidEndYmd | k_payoutStartYmd | k_payoutEndYmd
| k_sortKey | k_sortDir.

Inductive number_key : Type := k_page | k_pageSize.

(** The actions; the value of a [set] is typed as its key is. *)
Inductive FiltersAction : Type :=
| set_text (key : text_key) (value : jsstring)
| set_number (key : number_key) (value : num)
| reset
| setPage (page : num).

(** The label of the option that selects everything: U+5168 U+90E8. *)
Definition all_label : jsstring := [20840%N; 37096%N].

Definition initialFilters : FiltersState := {|
  status := all_label; category := all_label; group := all_label; q := [];
  paidStartYmd := []; paidEndYmd := [];
  payoutStartYmd := []; payoutEndYmd := [];
  sortKey := str "profit"; sortDir := str "desc";
  page := dec 1 0; pageSize := dec 50 0
|}.

(** [{ ...state, [key]: value }] for a text key. *)
Definition with_text (s : FiltersState) (key : text_key) (v : jsstring)
    : FiltersState :=
  let '(mkState a b c d e f g h i j p n) := s in
  match key with
  | k_status => mkState v b c d e f g h i j p n
  | k_category => mkState a v c d e f g h i j p n
  | k_group => mkState a b v d e f g h i j p n
  | k_q => mkState a b c v e f g h i j p n
  | k_paidStartYmd => mkState a b c d v f g h i j p n
  | k_paidEndYmd => mkState a b c d e v g h i j p n
  | k_payoutStartYmd => mkState a b c d e f v h i j p n
  | k_payoutEndYmd => mkState a b c d e f g v i j p n
  | k_sortKey => mkState a b c d e f g h v j p n
  | k_sortDir => mkState a b c d e f g h i v p n
  end.

(** [{ ...state, page: p }] and [{ ...state, pageSize: n }] *)
Definition with_page (s : FiltersState) (p : num) : FiltersState :=
  mkState (status s) (category s) (group s) (q s) (paidStartYmd s)
          (paidEndYmd s) (payoutStartYmd s) (payoutEndYmd s) (sortKey s)
          (sortDir s) p (pageSize s).

Definition with_pageSize (s : FiltersState) (n : num) : FiltersState :=
  mkState (status s) (category s) (group s) (q s) (paidStartYmd s)
          (paidEndYmd s) (payoutStartYmd s) (payoutEndYmd s) (sortKey s)
          (sortDir s) (page s) n.

(** Every key but [page] is in [resetsPageKeys]. *)
Definition filtersReducer (state : FiltersState) (action : FiltersAction)
    : FiltersState :=
  match action with
  | reset => initialFilters
  | setPage p => with_page state (Math_max (dec 1 0) p)
  | set_text key value => with_page (with_text state key value) (dec 1 0)
  | set_number k_pageSize value =>
      with_page (with_pageSize state value) (dec 1 0)
  | set_number k_page value => with_page state value
  end.

End PageFilters.

Import PageEdit PageExport PageHeaders.

(** ** [src/app/page.tsx]: mapRawRowsToRows and the base rows *)

Module PageImport.

(** A raw row of the sheet: the entries of the object, in the order of
    [Object.keys]. *)
Definition RawRow : Type := list (jsstring * cell).

(** [r[k]]: [undefined] when the row has no such key. *)
Definition cell_at (r : RawRow) (k : jsstring) : cell :=
  match find (fun e => bool_decide (fst e = k)) r with
  | Some e => snd e
  | None => Undefined
  end.

(** The label of a missing payout status: U+672A U+77E5. *)
Definition unknown_label : jsstring := [26410; 30693]%N.

(** The candidate headers of the columns; the ideographs are given by
    their code units. *)
Definition sku_headers : list jsstring :=
  [[24211; 23384]%N ++ str "sku"; str "SKU"; str "sku"].
Definition name_headers : list jsstring :=
  [[21830; 21697; 21517; 31216]%N; [26631; 39064]%N; [21517; 31216]%N].
Definition category_headers : list jsstring :=
  [[21345; 29255; 31867; 30446]%N; [31867; 30446]%N].
Definition status_headers : list jsstring :=
  [[22238; 27454; 29366; 24577]%N].
Definition qty_headers : list jsstring :=
  [[21806; 20986; 25968; 37327]%N; [25968; 37327]%N].
Definition gmv_headers : list jsstring :=
  [[25104; 20132; 37329; 39069]%N ++ str "($)";
   [25104; 20132; 37329; 39069]%N ++ str "USD";
   [25104; 20132; 37329; 39069]%N].
Definition payout_headers : list jsstring :=
  [[22238; 27454; 37329; 39069]%N ++ str "(" ++ [165]%N ++ str ")";
   [22238; 27454; 37329; 39069]%N ++ str "CNY";
   [22238; 27454; 37329; 39069]%N].
Definition paidAt_headers : list jsstring :=
  [str "eBay" ++ [29992; 25143; 20184; 27454; 26102; 38388]%N;
   [20184; 27454; 26102; 38388]%N].
Definition payoutAt_headers : list jsstring :=
  [[22238; 27454; 26102; 38388]%N].

Section Host.

(** [String(x)] for a Number and [excelDateToJSDate] belong to the host
    and to the sheet library. *)
Variable numberToString : num -> jsstring.
Variable excelDateToJSDate : cell -> option Z.

(** [String(v)] *)
Definition String_of (v : cell) : jsstring :=
  match v with
  | Null => str "null"
  | Undefined => str "undefined"
  | Num x => numberToString x
  | Str s => s
  end.

(** [k ? String(r[k]).trim() : missing] *)
Definition text_at (r : RawRow) (k missing : jsstring) : jsstring :=
  match k with
  | [] => missing
  | _ => trim (String_of (cell_at r k))
  end.

(** [toNumber(k ? r[k] : 0)] *)
Definition number_at (r : RawRow) (k : jsstring) : num :=
  toNumber (match k with [] => Num (dec 0 0) | _ => cell_at r k end).

(** [k ? excelDateToJSDate(r[k]) : null] *)
Definition date_at (r : RawRow) (k : jsstring) : option Z :=
  match k with
  | [] => None
  | _ => excelDateToJSDate (cell_at r k)
  end.

Definition mapRawRowsToRows (raw : list RawRow) : list Row :=
  match raw with
  | [] => []
  | sample :: _ =>
      let keys := map fst sample in
      let kSku := pickKey keys sku_headers in
      let kName := pickKey keys name_headers in
      let kCat := pickKey keys category_headers in
      let kStatus := pickKey keys status_headers in
      let kQty := pickKey keys qty_headers in
      let kGmv := pickKey keys gmv_headers in
      let kPayout := pickKey keys payout_headers in
      let kPaidAt := pickKey keys paidAt_headers in
      let kPayoutAt := pickKey keys payoutAt_headers in
      map (fun r =>
             let name := text_at r kName [] in
             mkRow (text_at r kSku []) name (text_at r kCat [])
                   (text_at r kStatus unknown_label)
                   (number_at r kQty) (number_at r kGmv) (number_at r kPayout)
                   (date_at r kPaidAt) (date_at r kPayoutAt)
                   (classifyTitleGroup name))
          raw
  end.

End Host.

End PageImport.

Module PageBase.

Import PageFilters.

(** [s || d] for texts. *)
Definition or_text (s d : jsstring) : jsstring :=
  match s with [] => d | _ => s end.

Fixpoint starts_with (needle s : jsstring) : bool :=
  match needle, s with
  | [], _ => true
  | x :: needle', c :: s' => (x =? c)%N && starts_with needle' s'
  | _ :: _, [] => false
  end.

(** [s.includes(needle)] *)
Fixpoint includes (s needle : jsstring) : bool :=
  starts_with needle s
  || match s with
     | [] => false
     | _ :: s' => includes s' needle
     end.

Section Host.

(** [String.prototype.toLowerCase] of the host. *)
Variable toLowerCase : jsstring -> jsstring.

(** The callback of [rows.filter] in [baseRows]. *)
Definition keeps (f : FiltersState) (qq : jsstring) (r : Row) : bool :=
  if negb (bool_decide (status f = all_label))
     && negb (bool_decide (or_text (payoutStatus r) PageImport.unknown_label
                           = status f))
  then false
  else if negb (bool_decide (category f = all_label))
          && negb (bool_decide (or_text (PageTsx.category r) [] = category f))
  then false
  else if negb (bool_decide (group f = all_label))
          && negb (bool_decide
                     (or_text (str (titleGroup r)) (str "Other") = group f))
  then false
  else match qq with
       | [] => true
       | _ =>
           if negb (includes (toLowerCase (or_text (sku r) [])) qq)
              && negb (includes (toLowerCase (or_text (name r) [])) qq)
           then false else true
       end.

Definition baseRows (rows : list Row) (f : FiltersState) : list Row :=
  let qq := toLowerCase (trim (q f)) in
  List.filter (keeps f qq) rows.

End Host.

(** The four date bounds of the filter state. *)
Definition dates_of (f : FiltersState) : PageTsx.FiltersState :=
  mkFilters (paidStartYmd f) (paidEndYmd f) (payoutStartYmd f)
            (payoutEndYmd f).

End PageBase.

Import PageImport PageBase.

(** ** Vocabulary of the properties *)

(** *** Titles and labels *)

(** The normalized title contains the text [phrase]. *)
Definition contains (phrase t : jsstring) : Prop :=
  ∃ pre post, t = pre ++ phrase ++ post.

Definition rule_names : list string :=
  ["KFC Pack"; "Sealed"; "TAG TEAM"; "Trainer Item / Supporter"; "OCD";
   "Master Ball"; "Logo Reverse Holo"; "Ball Holo"; "Mix"; "AR/CHR"; "SR/HR";
   "Japanese"; "RRR+VMAX"; "RR+RRR"; "RR Only"].

Definition label_names : list string := rule_names ++ ["Other"].

(** The text is delimited on both sides: it starts the string or follows a
    non-word character, and ends the string or precedes a non-word
    character. *)
Definition delimited (pre post : jsstring) : Prop :=
  match rev pre with c :: _ => is_word c = false | [] => True end
  ∧ match post with c :: _ => is_word c = false | [] => True end.

(** The lot count of a title written in ASCII. *)
Definition lot (title : string) : num := parseLotCountFromTitle (str title).

(** *** Costs *)

(** The override of the row is missing or is not a finite Number. *)
Definition no_finite_override (toISOString : Z -> jsstring)
    (ov : gmap string num) (r : Row) : Prop :=
  ∀ v, ov !! rowId toISOString r = Some v → isFinite v = false.

(** C4 as stated: the override when it is present and finite, otherwise
    the entry of the category table, and 0 when the category has no entry. *)
Definition unit_cost_claim (toISOString : Z -> jsstring) : Prop :=
  ∀ (costMap ov : gmap string num) (r : Row),
    (∀ v, ov !! rowId toISOString r = Some v → isFinite v = true →
          costPerLotForRow toISOString costMap ov r = v)
    ∧ (no_finite_override toISOString ov r →
       (∀ d, costMap !! titleGroup r = Some d →
             costPerLotForRow toISOString costMap ov r = d)
       ∧ (costMap !! titleGroup r = None →
          costPerLotForRow toISOString costMap ov r = dec 0 0)).

(** A sample row of the category "Mix". *)
Definition mix_row : Row :=
  mkRow [] (str "Mix bundle") [] [] (dec 1 0) (dec 10 0) (dec 50 0)
        None None "Mix".

(** *** Date windows *)

(** An end bound that is empty or a date [parseYmd] accepts. *)
Definition end_ok
    (localDate : num -> num -> num -> num -> num -> num -> num -> Date)
    (ymd : jsstring) : Prop :=
  ymd = [] ∨ is_Some (parseYmd localDate ymd).

(** A host for examples: every constructed Date is the epoch.  The
    properties of the date windows hold for any host. *)
Definition epoch_host : num -> num -> num -> num -> num -> num -> num -> Date :=
  fun _ _ _ _ _ _ _ => Some 0.

(** *** Sorting and ranks *)

(** [x] may stand before [y]: the comparator does not put it after. *)
Definition may_precede (comparefn : num -> num -> num) (x y : num) : Prop :=
  sorts_after comparefn x y = false.

(** The part of the language's "consistent comparator for a set of values"
    that fixes the sorted arrangement, as a check over the elements of [l]:
    of two elements at most one sorts after the other, and "may precede" is
    transitive. *)
Definition consistent_on (comparefn : num -> num -> num) (l : list num)
    : bool :=
  let after := sorts_after comparefn in
  forallb (fun x =>
    forallb (fun y =>
      (negb (after x y) || negb (after y x))
      && forallb (fun z =>
           implb (negb (after x y) && negb (after y z)) (negb (after x z))) l)
      l) l.

(** After the spec's words: the nearest-rank percentile of a list of [n]
    values is the value of rank [ceil(p * n)] (rank 1 for [p = 0]) in
    ascending order.  The rank is computed exactly from the value of [p]. *)
Definition nearest_rank_index (n : nat) (p : num) : option nat :=
  match p with
  | S754_zero _ => Some 0%nat
  | S754_finite false m e =>
      let rank :=
        if 0 <=? e then Zpos m * 2 ^ e * Z.of_nat n
        else - ((- (Zpos m * Z.of_nat n)) / 2 ^ (- e)) in
      Some (Z.to_nat (Z.max rank 1 - 1))
  | _ => None
  end.

Definition nearest_rank (arr : list num) (p : num) : option num :=
  i ← nearest_rank_index (length arr) p;
  Array_sort ascending arr !! i.

(** A list of integer Numbers. *)
Definition nums (l : list Z) : list num := map num_of_Z l.

(** *** Shapes of binary64 values *)

(** The canonical mantissa and exponent of a positive integer below 2^53. *)
Definition canon_mant (p : positive) : positive :=
  fst (shl_align p 0 (Zpos (Pos.size p) - 53)).
Definition canon_exp (p : positive) : Z := Zpos (Pos.size p) - 53.

(** A zero or a positive finite Number. *)
Definition nonneg_finite (x : num) : Prop :=
  match x with
  | S754_zero _ | S754_finite false _ _ => True
  | _ => False
  end.

(** The shapes that [Math.max(0, Math.floor(y))] takes for a product [y] of
    non-negative Numbers: 0, [+Infinity], a Number with a non-negative
    exponent, or a positive integer below 2^53. *)
Inductive floor_shape : num -> Prop :=
| shape_zero : floor_shape pzero
| shape_inf : floor_shape pinf
| shape_big (m : positive) (e : Z) : 0 <= e → floor_shape (S754_finite false m e)
| shape_int (r : positive) : Zpos r < 2 ^ 53 → floor_shape (num_of_Z (Zpos r)).

(** *** Editing the cost tables *)

(** Every value of the table is a finite Number. *)
Definition all_finite (m : gmap string num) : Prop :=
  map_Forall (fun _ v => isFinite v = true) m.

(** *** Row identifiers *)

(** The hash word of [hashStr], before it is written in base 36. *)
Definition fnv1a (s : jsstring) : Z :=
  fold_left (fun h c => imul (Z.lxor h (Z.of_N c mod 2 ^ 32)) 16777619)
            s 2166136261.

(** The value of a base-36 digit and of a base-36 numeral. *)
Definition value36_digit (a : ascii) : Z :=
  let n := Z.of_N (N_of_ascii a) in
  if n <? 58 then n - 48 else n - 87.

Fixpoint value36 (acc : Z) (s : string) : Z :=
  match s with
  | EmptyString => acc
  | String a s' => value36 (acc * 36 + value36_digit a) s'
  end.

Definition is_digit36 (a : ascii) : bool :=
  let n := N_of_ascii a in
  ((48 <=? n) && (n <=? 57) || (97 <=? n) && (n <=? 122))%N.

Fixpoint forall_chars (p : ascii -> bool) (s : string) : bool :=
  match s with
  | EmptyString => true
  | String a s' => p a && forall_chars p s'
  end.

(** *** The test of a date window *)

(** The test that [filterByDate] applies to the selected date of a row for
    the given bounds; [None] when the call throws. *)
Definition date_window
    (localDate : num -> num -> num -> num -> num -> num -> num -> Date)
    (getFullYear getMonth getDate : Date -> num)
    (startYmd endYmd : jsstring) : option (option Z -> bool) :=
  end_ ← match endYmd with
         | [] => Some None
         | _ => match parseYmd localDate endYmd with
                | Some d => Some (Some (endOfDay localDate getFullYear getMonth
                                          getDate d))
                | None => None
                end
         end;
  Some (match parseYmd localDate startYmd, end_ with
        | None, None => fun _ => true
        | start, end_ => in_window start end_
        end).

(** A sample row paid at the instant 5. *)
Definition paid_row : Row :=
  mkRow [] (str "Mix bundle") [] [] (dec 1 0) (dec 10 0) (dec 50 0)
        (Some 5) None "Mix".

(** *** Reading a line of the export *)





(** *** Counts *)

(** A finite Number whose mantissa fits the 53 bits of the format, or a
    value that is not finite. *)
Definition fits53 (x : num) : Prop :=
  match x with
  | S754_finite _ m _ => Zpos m < 2 ^ 53
  | _ => True
  end.

(** A Number that is a count: [+0] or a positive integer. *)
Definition is_count (x : num) : Prop :=
  match x with
  | S754_zero false => True
  | S754_finite false m e => 0 <= e ∨ Zpos m mod 2 ^ (- e) = 0
  | _ => False
  end.

(** *** Letter case *)

(** The text with its ASCII letters in upper case. *)
Definition upcase (s : jsstring) : jsstring := map to_upper s.

(** Two texts that differ at most in the case of ASCII letters. *)
Definition same_up_to_case (s t : jsstring) : Prop := upcase s = upcase t.

Definition upcase_state (s : mstate) : mstate :=
  MState (upcase (before s)) (upcase (after s))
         (map (fun c => (fst c, upcase (snd c))) (caps s)).

(** A pattern whose classes do not tell a letter from its other case. *)
Fixpoint case_blind (r : regex) : Prop :=
  match r with
  | Cls p | Star p => ∀ c, p (to_upper c) = p c
  | Seq r1 r2 => case_blind r1 ∧ case_blind r2
  | Opt r1 | Grp _ r1 => case_blind r1
  | Eps | Chr _ | WordB => True
  end.

(** The code units that a pattern can consume. *)
Fixpoint eats (r : regex) (c : N) : Prop :=
  match r with
  | Eps | WordB => False
  | Chr x => chr_eqb x c = true
  | Cls p | Star p => p c = true
  | Seq r1 r2 => eats r1 c ∨ eats r2 c
  | Opt r1 | Grp _ r1 => eats r1 c
  end.

(** Every capturing group of the pattern consumes only code units in [q]. *)
Fixpoint captures_in (q : N → Prop) (r : regex) : Prop :=
  match r with
  | Grp _ r1 => (∀ c, eats r1 c → q c) ∧ captures_in q r1
  | Seq r1 r2 => captures_in q r1 ∧ captures_in q r2
  | Opt r1 => captures_in q r1
  | Eps | Chr _ | Cls _ | WordB | Star _ => True
  end.

Definition caps_in (q : N → Prop) (s : mstate) : Prop :=
  Forall (fun c => Forall q (snd c)) (caps s).

(** A digit or a full stop: what a numeral of a title is made of. *)
Definition numeral_char (c : N) : Prop := is_digit c = true ∨ c = 46%N.

(** Decides the comparisons of code units that the context fixes. *)
Ltac decide_cmp :=
  repeat match goal with
  | |- context [(?a <=? ?b)%N] =>
      first [ rewrite (proj2 (N.leb_le a b)) by lia
            | rewrite (proj2 (N.leb_gt a b)) by lia ]
  | |- context [(?a =? ?b)%N] =>
      first [ rewrite (proj2 (N.eqb_eq a b)) by lia
            | rewrite (proj2 (N.eqb_neq a b)) by lia ]
  end.

(** Splits on whether [c] is a lower-case letter. *)
Ltac by_letter c :=
  let E := fresh "E" in
  let E1 := fresh "E1" in
  let E2 := fresh "E2" in
  unfold to_upper; destruct (is_lower c) eqn:E; [|now rewrite ?E];
  unfold is_lower in E; apply andb_prop in E as [E1 E2];
  apply N.leb_le in E1, E2.

(** *** Headers of the sheet *)

(** A code unit that a normalized header never holds. *)
Definition header_noise (c : N) : bool :=
  is_space c || is_bracket c || (c =? 36)%N || (c =? 165)%N.

(** *** Actions on the filters *)

(** A page number that is 1 or more, or [NaN]. *)
Definition page_ok (p : num) : Prop := le (dec 1 0) p = true ∨ p = NaN.

(** An action that the controls of the page send: none of them is a [set]
    of the key [page]. *)
Definition sent_by_page (a : PageFilters.FiltersAction) : Prop :=
  match a with
  | PageFilters.set_number PageFilters.k_page _ => False
  | _ => True
  end.

(** *** The sibling revision *)

(** The labels that the classifier of the sibling revision returns. *)
Definition part000_labels : list string :=
  ["KFC Pack"; "OCD"; "TAG TEAM"; "Sealed"; "Master Ball";
   "Logo Reverse Holo"; "Ball Holo"; "Mix"; "AR/CHR"; "SR/HR"; "Japanese";
   "RRR+VMAX"; "RR+RRR"; "RR Only"; "Other"].

(** *** Default results *)

(** Every match of the pattern consumes a code unit in [p]. *)
Fixpoint must_eat (p : N → Prop) (r : regex) : Prop :=
  match r with
  | Chr x => ∀ c, chr_eqb x c = true → p c
  | Cls q => ∀ c, q c = true → p c
  | Seq r1 r2 => must_eat p r1 ∨ must_eat p r2
  | Grp _ r1 => must_eat p r1
  | Eps | WordB | Star _ | Opt _ => False
  end.

(** An ASCII letter, and the letter [x] in either case. *)
Definition is_letter (c : N) : Prop := is_upper c = true ∨ is_lower c = true.
Definition letter (x : N) (c : N) : Prop := to_upper c = to_upper x.

(** *** Unfiltered views *)

(** A filter state that selects everything. *)
Definition selects_all (f : PageFilters.FiltersState) : Prop :=
  PageFilters.status f = PageFilters.all_label
  ∧ PageFilters.category f = PageFilters.all_label
  ∧ PageFilters.group f = PageFilters.all_label
  ∧ trim (PageFilters.q f) = []
  ∧ PageFilters.paidStartYmd f = [] ∧ PageFilters.paidEndYmd f = []
  ∧ PageFilters.payoutStartYmd f = [] ∧ PageFilters.payoutEndYmd f = [].

(** *** Percentiles outside the unit interval *)

(** A zero or a Number with the sign bit set, an infinity included. *)
Definition nonpos_shape (x : num) : Prop :=
  match x with
  | S754_zero _ | S754_infinity true | S754_finite true _ _ => True
  | _ => False
  end.

(** ** Properties *)

(** *** The embedding of Numbers and strings on known values *)

(** [0.1 + 0.2] is [0.30000000000000004] and not [0.3]; [0.7 * 100] is 70;
    [0.1] is the binary64 value [0x3FB999999999999A]. *)
Example binary64_known_values :
  add (dec 1 (-1)) (dec 2 (-1)) = dec 30000000000000004 (-17)
  ∧ add (dec 1 (-1)) (dec 2 (-1)) ≠ dec 3 (-1)
  ∧ mul (dec 7 (-1)) (dec 100 0) = dec 70 0
  ∧ dec 1 (-1) = S754_finite false 7205759403792794 (-56)
  ∧ StringToNumber (str " -12.50e1 ") = SFopp (dec 125 0)
  ∧ StringToNumber (str "0x1F") = dec 31 0
  ∧ StringToNumber (str "12abc") = NaN.
Proof. repeat split; try (vm_compute; reflexivity). vm_compute. discriminate. Qed.

(** The FNV-1a hash of "abc" is [0x1a47e90b], written in base 36. *)
Example hashStr_abc : hashStr (str "abc") = "7aigaz".
Proof. vm_compute. reflexivity. Qed.

(** *** The classifier *)

Section Classifier.

(** The loop over [rules] returns the name of the first rule whose test
    holds, and ["Other"] when none does. *)
Lemma first_match_spec (rs : list (string * bool)) :
  (∃ l1 n l2, rs = l1 ++ (n, true) :: l2
              ∧ Forall (fun r => snd r = false) l1 ∧ first_match rs = n)
  ∨ (Forall (fun r => snd r = false) rs ∧ first_match rs = "Other").
Proof.
  induction rs as [|[n b] rs IH]; simpl.
  - right. split; [constructor | reflexivity].
  - destruct b.
    + left. exists [], n, rs. repeat split. constructor.
    + destruct IH as [(l1 & m & l2 & -> & Hl1 & Hm) | [Hall Ho]].
      * left. exists ((n, false) :: l1), m, l2. repeat split; trivial.
        constructor; trivial.
      * right. split; trivial. constructor; trivial.
Qed.

Lemma first_match_in (rs : list (string * bool)) :
  first_match rs = "Other" ∨ In (first_match rs) (map fst rs).
Proof.
  induction rs as [|[n b] rs IH]; simpl; [now left|].
  destruct b; [right; now left|].
  destruct IH; [now left | right; now right].
Qed.

(** A match found at some start position is found by the scan. *)
Lemma exec_from_finds (r : regex) (pre : list N) :
  ∀ bef rest,
    is_Some (rmatch r Some (MState (rev pre ++ bef) rest [])) →
    is_Some (exec_from r bef (pre ++ rest)).
Proof.
  induction pre as [|c pre IH]; intros bef rest H; simpl in *.
  - destruct H as [m Hm]. destruct rest; simpl; rewrite Hm; eauto.
  - destruct (rmatch r Some (MState bef (c :: pre ++ rest) [])); eauto.
    apply IH. now rewrite <- app_assoc in H.
Qed.

Lemma test_at (r : regex) (pre rest : list N) :
  is_Some (rmatch r Some (MState (rev pre) rest [])) →
  test r (pre ++ rest) = true.
Proof.
  intros H. unfold test, exec.
  destruct (exec_from_finds r pre [] rest) as [m ->]; trivial.
  now rewrite app_nil_r.
Qed.

Lemma master_ball_phrase (pre post : jsstring) :
  delimited pre post →
  masterBall (extract (pre ++ str "Master Ball" ++ post)) = true.
Proof.
  intros [Hpre Hpost]. cbn [extract masterBall].
  apply test_at. unfold re_masterBall, word, cat, lit. cbn.
  unfold at_boundary. cbn.
  destruct (rev pre) as [|c bef]; cbn.
  - destruct post as [|d post]; cbn; eauto. rewrite Hpost. cbn. eauto.
  - rewrite Hpre. cbn.
    destruct post as [|d post]; cbn; eauto. rewrite Hpost. cbn. eauto.
Qed.

Lemma rules_names (has : features) : map fst (rules has) = rule_names.
Proof. reflexivity. Qed.

Lemma classify_in_labels (title : jsstring) :
  In (classifyTitleGroup title) label_names.
Proof.
  unfold classifyTitleGroup, label_names. apply in_or_app.
  destruct (first_match_in (rules (extract (normalize title)))) as [-> | H].
  - right. now left.
  - left. now rewrite rules_names in H.
Qed.

(** C1, as stated, fails: a title that contains both phrases and the word
    "Sealed" is classified by the earlier rule "Sealed". *)
Lemma classify_master_ball_counterexample :
  ¬ (∀ title : jsstring,
       contains (str "Master Ball") (normalize title) →
       contains (str "Ball Holo") (normalize title) →
       classifyTitleGroup title = "Master Ball").
Proof.
  intros H.
  specialize (H (str "Sealed Master Ball Holo")).
  assert (classifyTitleGroup (str "Sealed Master Ball Holo") = "Sealed") as E
    by (vm_compute; reflexivity).
  rewrite E in H. discriminate H.
  - exists (str "Sealed "), (str " Holo"). vm_compute. reflexivity.
  - exists (str "Sealed Master "), []. vm_compute. reflexivity.
Qed.

(** The phrase must stand as whole words for the page's predicate: inside
    "Webmaster" the word boundary before "master" is missing, and the title
    falls through to "Ball Holo". *)
Example classify_webmaster_ball_holo :
  contains (str "master Ball") (normalize (str "Webmaster Ball Holo"))
  ∧ classifyTitleGroup (str "Webmaster Ball Holo") = "Ball Holo".
Proof.
  split; [exists (str "Web"), (str " Holo") | ]; vm_compute; reflexivity.
Qed.

(** C1 (amended).  The rule list is evaluated top to bottom and the first
    rule whose predicate holds gives the label.  For every title whose
    normalized text satisfies the Master Ball predicate
    [/\bmaster\s*ball\b/i] -- in particular when it contains the words
    "Master Ball" delimited by non-word characters -- and satisfies none of
    the five rules listed before it (KFC Pack, Sealed, TAG TEAM, Trainer
    Item / Supporter, OCD), [classifyTitleGroup] returns "Master Ball",
    whether or not the Ball Holo predicate holds as well; and whenever the
    Master Ball predicate holds the label is not "Ball Holo". *)
Theorem classify_master_ball_first (title : jsstring) :
  let has := extract (normalize title) in
  ((∃ l1 n l2, rules has = l1 ++ (n, true) :: l2
               ∧ Forall (fun r => snd r = false) l1
               ∧ classifyTitleGroup title = n)
   ∨ (Forall (fun r => snd r = false) (rules has)
      ∧ classifyTitleGroup title = "Other"))
  ∧ (kfc has || sealed has || tagTeam has || trainer has || ocd has = false →
     masterBall has = true →
     classifyTitleGroup title = "Master Ball")
  ∧ (kfc has || sealed has || tagTeam has || trainer has || ocd has = false →
     ∀ pre post,
       normalize title = pre ++ str "Master Ball" ++ post →
       delimited pre post →
       classifyTitleGroup title = "Master Ball")
  ∧ (masterBall has = true → classifyTitleGroup title ≠ "Ball Holo").
Proof.
  intros has.
  assert (Hmb : kfc has || sealed has || tagTeam has || trainer has || ocd has
                = false →
                masterBall has = true →
                classifyTitleGroup title = "Master Ball").
  { unfold classifyTitleGroup. fold has. clearbody has. intros He Hm.
    repeat (apply orb_false_elim in He; destruct He as [He ?]).
    cbn. rewrite He. repeat match goal with H : _ = false |- _ => rewrite H end.
    now rewrite Hm. }
  split; [apply first_match_spec|].
  split; [exact Hmb|].
  split.
  - intros He pre post Ht Hd. apply Hmb; trivial.
    subst has. rewrite Ht. now apply master_ball_phrase.
  - unfold classifyTitleGroup. fold has. clearbody has. intros Hm.
    cbn. rewrite Hm.
    destruct (kfc has), (sealed has), (tagTeam has), (trainer has), (ocd has);
      discriminate.
Qed.

Lemma classify_master_ball_first_witness :
  classifyTitleGroup (str "Master Ball Holo") = "Master Ball"
  ∧ ballHolo (extract (normalize (str "Master Ball Holo"))) = true.
Proof.
  split.
  - apply (proj1 (proj2 (classify_master_ball_first (str "Master Ball Holo"))));
      vm_compute; reflexivity.
  - vm_compute; reflexivity.
Defined.

(** The sibling revision orders the two rules the same way: its Master
    Ball test comes after KFC Pack, OCD, TAG TEAM and Sealed, and before
    Ball Holo. *)
Lemma part000_master_ball_first (title : jsstring) :
  let t := normalize title in
  test (word "kfc") t && test Part000.re_packs t = false →
  test (word "ocd") t = false →
  test Part000.re_tagTeam t = false →
  test (word "sealed") t = false →
  test Part000.re_masterBall t = true →
  Part000.classifyTitleGroup title = "Master Ball".
Proof.
  intros t H1 H2 H3 H4 H5. unfold Part000.classifyTitleGroup. fold t.
  now rewrite H1, H2, H3, H4, H5.
Qed.

Example part000_master_ball_holo :
  Part000.classifyTitleGroup (str "Master Ball Holo") = "Master Ball"
  ∧ Part000.classifyTitleGroup (str "Sealed Master Ball Holo") = "Sealed".
Proof. split; vm_compute; reflexivity. Qed.

(** C10.  Every label that [classifyTitleGroup] returns is a key of
    [COST_DEFAULTS] with a finite value, so the category-default lookup
    against the untouched default table never takes its absent branch. *)
Theorem classify_label_has_default (title : jsstring) :
  In (classifyTitleGroup title) label_names
  ∧ ∃ v, COST_DEFAULTS !! classifyTitleGroup title = Some v
         ∧ isFinite v = true
         ∧ costPerLotOfGroup COST_DEFAULTS (classifyTitleGroup title) = v.
Proof.
  split; [apply classify_in_labels|].
  pose proof (classify_in_labels title) as H.
  revert H. generalize (classifyTitleGroup title). intros g H.
  unfold costPerLotOfGroup, finite_or, label_names, rule_names in *.
  cbn [In app] in H.
  repeat (destruct H as [<- | H];
          [eexists; repeat split; vm_compute; reflexivity|]).
  destruct H.
Qed.

End Classifier.

(** *** The lot extractor *)

Section LotCount.

(** C2, as stated, fails at "-3 Lot": the pattern captures the unsigned
    numeral "3", so 3 is returned, not 1. *)
Lemma lot_examples_counterexample :
  ¬ (lot "137 Lot Bundle" = dec 137 0 ∧ lot "Lot 42" = dec 42 0
     ∧ lot "1.50 Lot" = dec 150 0 ∧ lot "plain title, no lot" = dec 1 0
     ∧ lot "-3 Lot" = dec 1 0).
Proof.
  intros (_ & _ & _ & _ & H). vm_compute in H. discriminate H.
Qed.

(** C2 (amended).  [parseLotCountFromTitle] returns 137 for
    "137 Lot Bundle", 42 for "Lot 42", 150 for "1.50 Lot", 1 for
    "plain title, no lot", and 3 for "-3 Lot" (the hyphen is not part of the
    numeral); a numeral that is zero, as in "0 Lot", gives 1. *)
Theorem lot_examples :
  lot "137 Lot Bundle" = dec 137 0 ∧ lot "Lot 42" = dec 42 0
  ∧ lot "1.50 Lot" = dec 150 0 ∧ lot "plain title, no lot" = dec 1 0
  ∧ lot "-3 Lot" = dec 3 0 ∧ lot "0 Lot" = dec 1 0.
Proof. repeat split; vm_compute; reflexivity. Qed.

(** C3 at "0.04 Lot": the numeral is positive, its hundredfold 4 is below
    10, and [Math.round(0.04)] is 0: the lot count is 0, not at least 1. *)
Theorem lot_small_fraction_is_zero :
  lot "0.04 Lot" = dec 0 0 ∧ ge (lot "0.04 Lot") (dec 1 0) = false.
Proof. split; vm_compute; reflexivity. Qed.

(** The default and the guard of the extractor do give 1. *)
Example lot_defaults :
  lot "" = dec 1 0 ∧ lot "0.00 lot" = dec 1 0 ∧ lot "0.5 Lot" = dec 50 0.
Proof. repeat split; vm_compute; reflexivity. Qed.

End LotCount.

(** *** Loading the cost table, reading numeric cells *)

Section Loading.

(** In the sibling revision the stored document is merged over the
    defaults: a default category missing from it keeps its value. *)
Lemma part000_load_keeps_defaults (doc : gmap string num) (g : string) (v : num) :
  Part000.COST_DEFAULTS !! g = Some v →
  doc !! g = None →
  Part000.costMap_loaded (Some doc) !! g = Some v.
Proof.
  intros Hd Hn. unfold Part000.costMap_loaded.
  rewrite lookup_union_r; trivial.
Qed.

(** C7 at the stored document [{"Mix": 0.5}]: the page replaces the
    defaults by the document, so "OCD" (default 14) has no entry after load
    and costs 0, where the sibling revision keeps 14. *)
Theorem page_load_drops_defaults :
  let doc : gmap string num := {[ "Mix" := dec 5 (-1) ]} in
  doc !! "OCD" = None
  ∧ COST_DEFAULTS !! "OCD" = Some (dec 14 0)
  ∧ costMap_loaded (Some doc) !! "OCD" = None
  ∧ costPerLotOfGroup (costMap_loaded (Some doc)) "OCD" = dec 0 0
  ∧ Part000.costMap_loaded (Some doc) !! "OCD" = Some (dec 14 0).
Proof. repeat split; vm_compute; reflexivity. Qed.

(** Without a stored document both revisions start from the defaults. *)
Example load_without_document :
  costMap_loaded None = COST_DEFAULTS
  ∧ Part000.costMap_loaded None = Part000.COST_DEFAULTS.
Proof. split; reflexivity. Qed.

(** [toNumber] never fails and never yields [NaN] or an infinity. *)
Lemma toNumber_finite (v : cell) : isFinite (toNumber v) = true.
Proof.
  destruct v as [| |x|s]; cbn; trivial.
  - destruct (isFinite x) eqn:E; trivial.
  - destruct (remove_commas (trim s)); trivial.
    destruct (isFinite (StringToNumber _)) eqn:E; trivial.
Qed.

Lemma part000_toNumber_finite (v : cell) : isFinite (Part000.toNumber v) = true.
Proof.
  destruct v as [| |x|s]; cbn; trivial.
  - destruct (isFinite x) eqn:E; trivial.
  - destruct s; trivial.
    destruct (isFinite (StringToNumber _)) eqn:E; trivial.
Qed.

(** C9 at the cell "$1,234.5": the page removes the comma only, the text
    "$1234.5" is not a numeric literal, and the result is 0; the sibling
    revision removes the currency sign too and returns 1234.5. *)
Theorem toNumber_currency_is_zero :
  toNumber (Str (str "$1,234.5")) = dec 0 0
  ∧ toNumber (Str (str "1,234.5")) = dec 12345 (-1)
  ∧ Part000.toNumber (Str (str "$1,234.5")) = dec 12345 (-1).
Proof. repeat split; vm_compute; reflexivity. Qed.

End Loading.

(** *** The cost and profit model *)

(** A Number equal to 0 ([+0] or [-0]) is falsy; a Number greater than 0 is
    truthy. *)
Lemma falsy_of_zero (x : num) : eqn x (dec 0 0) = true → truthy x = false.
Proof. destruct x as [s|s| |s m e]; trivial; destruct s; discriminate. Qed.

Lemma truthy_of_positive (x : num) : gt x (dec 0 0) = true → truthy x = true.
Proof. destruct x as [s|s| |s m e]; trivial; discriminate. Qed.

Section CostModel.

Variable toISOString : Z -> jsstring.

Abbreviation unitCost := (costPerLotForRow toISOString).
Abbreviation profit := (profitOf toISOString).
Abbreviation no_override := (no_finite_override toISOString).

(** C4 (amended).  The effective unit cost is the override of the row when
    one is present and finite; otherwise it is the entry of the category
    table for [titleGroup] when that entry is finite, and 0 when the
    category has no entry or its entry is not finite. *)
Theorem unit_cost_precedence (costMap ov : gmap string num) (r : Row) :
  (∀ v, ov !! rowId toISOString r = Some v → isFinite v = true →
        unitCost costMap ov r = v)
  ∧ (no_override ov r →
     unitCost costMap ov r = costPerLotOfGroup costMap (titleGroup r)
     ∧ (∀ d, costMap !! titleGroup r = Some d → isFinite d = true →
             unitCost costMap ov r = d)
     ∧ (∀ d, costMap !! titleGroup r = Some d → isFinite d = false →
             unitCost costMap ov r = dec 0 0)
     ∧ (costMap !! titleGroup r = None → unitCost costMap ov r = dec 0 0)).
Proof.
  unfold costPerLotForRow, costPerLotOfGroup, finite_or, no_finite_override.
  split.
  - intros v -> ->. reflexivity.
  - intros Hno.
    assert (E : match ov !! rowId toISOString r with
                | Some v => isFinite v = false
                | None => True
                end).
    { destruct (ov !! rowId toISOString r) as [v|]; [now apply Hno | exact I]. }
    destruct (ov !! rowId toISOString r) as [v|].
    + rewrite E. repeat split.
      * intros d -> ->. reflexivity.
      * intros d -> ->. reflexivity.
      * intros ->. reflexivity.
    + repeat split.
      * intros d -> ->. reflexivity.
      * intros d -> ->. reflexivity.
      * intros ->. reflexivity.
Qed.

(** C5.  A row whose payout is 0 has profit 0 whatever the tables and the
    lot count; a row whose payout is greater than 0 has profit
    [payout - unit cost * lot count].  End to end: the title
    "100 Lot Master Ball Holo" with payout 500 and the default cost 0.7 of
    "Master Ball" gives lot 100, total cost 70 and profit 430. *)
Theorem profit_of_payout (costMap ov : gmap string num) (r : Row) :
  (eqn (payoutCny r) (dec 0 0) = true → profit costMap ov r = dec 0 0)
  ∧ (gt (payoutCny r) (dec 0 0) = true →
     profit costMap ov r
     = sub (payoutCny r) (mul (unitCost costMap ov r) (lotCountOf r)))
  ∧ (let title := str "100 Lot Master Ball Holo" in
     let e2e := mkRow [] title [] [] (dec 1 0) (dec 0 0) (dec 500 0)
                      None None (classifyTitleGroup title) in
     titleGroup e2e = "Master Ball"
     ∧ COST_DEFAULTS !! "Master Ball" = Some (dec 7 (-1))
     ∧ lotCountOf e2e = dec 100 0
     ∧ totalCostOf toISOString COST_DEFAULTS ∅ e2e = dec 70 0
     ∧ profit COST_DEFAULTS ∅ e2e = dec 430 0).
Proof.
  unfold profitOf, totalCostOf. split; [|split].
  - intros H. now rewrite (falsy_of_zero _ H).
  - intros H. now rewrite (truthy_of_positive _ H).
  - cbn zeta. unfold costPerLotForRow, finite_or.
    rewrite lookup_empty. repeat split; vm_compute; reflexivity.
Qed.

End CostModel.

(** C4, as stated, fails when the entry of the category is not finite: for
    the table [{"Mix": Infinity}] and no override the cost is 0, not the
    entry. *)
Lemma unit_cost_counterexample :
  ¬ (∀ toISOString : Z -> jsstring, unit_cost_claim toISOString).
Proof.
  intros H.
  destruct (H (fun _ => []) {[ "Mix" := pinf ]} ∅ mix_row) as [_ H2].
  destruct H2 as [H2 _].
  - intros v Hv. now rewrite lookup_empty in Hv.
  - specialize (H2 pinf eq_refl).
    unfold costPerLotForRow, finite_or in H2.
    rewrite lookup_empty in H2. vm_compute in H2. discriminate H2.
Qed.


Lemma unit_cost_precedence_witness :
  let tis : Z -> jsstring := fun _ => [] in
  let ov : gmap string num := {[ rowId tis mix_row := dec 9 (-1) ]} in
  costPerLotForRow tis COST_DEFAULTS ov mix_row = dec 9 (-1)
  ∧ costPerLotForRow tis COST_DEFAULTS ∅ mix_row = dec 2 (-1).
Proof.
  intros tis ov. split.
  - apply (proj1 (unit_cost_precedence tis COST_DEFAULTS ov mix_row));
      vm_compute; reflexivity.
  - apply (proj2 (unit_cost_precedence tis COST_DEFAULTS ∅ mix_row)).
    + intros v Hv. vm_compute in Hv. discriminate Hv.
    + vm_compute; reflexivity.
    + vm_compute; reflexivity.
Defined.

Lemma profit_of_payout_witness :
  let tis : Z -> jsstring := fun _ => [] in
  profitOf tis COST_DEFAULTS ∅ mix_row
  = sub (dec 50 0) (mul (dec 2 (-1)) (dec 1 0))
  ∧ profitOf tis COST_DEFAULTS ∅
      (mkRow [] (str "RR Only pack") [] [] (dec 1 0) (dec 0 0) (dec 0 0)
             None None "RR Only") = dec 0 0.
Proof.
  intros tis. split.
  - rewrite (proj1 (proj2 (profit_of_payout tis COST_DEFAULTS ∅ mix_row)));
      vm_compute; reflexivity.
  - apply (proj1 (profit_of_payout tis COST_DEFAULTS ∅ _));
      vm_compute; reflexivity.
Defined.

(** *** The two date windows *)

Section DateWindows.

Variable toISOString : Z -> jsstring.
Variable localDate : num -> num -> num -> num -> num -> num -> num -> Date.
Variables getFullYear getMonth getDate : Date -> num.
Variables costMap rowCostOverride : gmap string num.

Abbreviation filterBy := (filterByDate localDate getFullYear getMonth getDate).
Abbreviation kpiOf :=
  (kpi toISOString localDate getFullYear getMonth getDate
       costMap rowCostOverride).
Abbreviation paidOf := (paidRows localDate getFullYear getMonth getDate).
Abbreviation payoutOf := (payoutRows localDate getFullYear getMonth getDate).
Abbreviation end_is_ok := (end_ok localDate).

(** Whether a row passes [filterByDate] depends on the selected date of
    the row alone. *)
Lemma filterByDate_by_selected_date (input : list Row)
    (getDt : Row -> option Z) (startYmd endYmd : jsstring) (out : list Row) :
  filterBy input getDt startYmd endYmd = Some out →
  ∃ keep : option Z -> bool,
    out = List.filter (fun r => keep (getDt r)) input.
Proof.
  unfold filterByDate. intros H.
  destruct (match endYmd with
            | [] => Some None
            | _ :: _ => match parseYmd localDate endYmd with
                        | Some d => Some (Some (endOfDay localDate getFullYear
                                                  getMonth getDate d))
                        | None => None
                        end
            end) as [e|]; cbn in H; [|discriminate].
  destruct (parseYmd localDate startYmd) as [st|], e as [en|];
    injection H as <-; eauto.
  exists (fun _ => true).
  induction input as [|a l IH]; cbn; [reflexivity | now rewrite <- IH].
Qed.

Lemma filterByDate_defined (input : list Row) (getDt : Row -> option Z)
    (startYmd endYmd : jsstring) :
  end_is_ok endYmd → is_Some (filterBy input getDt startYmd endYmd).
Proof.
  unfold filterByDate. intros [-> | [d Hd]].
  - cbn. destruct (parseYmd localDate startYmd); eauto.
  - rewrite Hd. destruct endYmd; cbn;
      destruct (parseYmd localDate startYmd); eauto.
Qed.

(** A render with acceptable end bounds completes. *)
Lemma kpi_defined (baseRows : list Row) (f : FiltersState) :
  end_is_ok (paidEndYmd f) → end_is_ok (payoutEndYmd f) →
  is_Some (kpiOf baseRows f).
Proof.
  intros Hp Hq. unfold kpi, paidRows, payoutRows, listRows.
  destruct (filterByDate_defined baseRows paidAt (paidStartYmd f) _ Hp)
    as [l1 ->].
  destruct (filterByDate_defined baseRows payoutAt (payoutStartYmd f) _ Hq)
    as [l2 ->].
  cbn.
  destruct (filterByDate_defined l1 payoutAt (payoutStartYmd f) _ Hq)
    as [l3 ->].
  cbn. eauto.
Qed.

(** C6.  Of two completed renders over the same rows, the GMV total is the
    same when they agree on the paid-date range, whatever their payout-date
    ranges; the payout total, the cost and profit totals and the margin are
    the same when they agree on the payout-date range, whatever their
    paid-date ranges.  The rows behind the GMV total are selected by
    [paidAt] alone and those behind the payout totals by [payoutAt] alone. *)
Theorem kpi_date_windows_independent (baseRows : list Row)
    (f1 f2 : FiltersState) (k1 k2 : KPI) :
  kpiOf baseRows f1 = Some k1 →
  kpiOf baseRows f2 = Some k2 →
  (paidStartYmd f1 = paidStartYmd f2 → paidEndYmd f1 = paidEndYmd f2 →
   kpi_gmvUsd k1 = kpi_gmvUsd k2)
  ∧ (payoutStartYmd f1 = payoutStartYmd f2 →
     payoutEndYmd f1 = payoutEndYmd f2 →
     kpi_payoutCny k1 = kpi_payoutCny k2 ∧ totalCost k1 = totalCost k2
     ∧ totalProfit k1 = totalProfit k2 ∧ margin k1 = margin k2)
  ∧ (∃ keepPaid keepPayout : option Z -> bool,
       kpi_gmvUsd k1
       = sum_by (fun r => or_zero (gmvUsd r))
                (List.filter (fun r => keepPaid (paidAt r)) baseRows)
       ∧ kpi_payoutCny k1
         = sum_by (fun r => or_zero (payoutCny r))
                  (List.filter (fun r => keepPayout (payoutAt r)) baseRows)
       ∧ totalProfit k1
         = sum_by (profitOf toISOString costMap rowCostOverride)
                  (List.filter (fun r => keepPayout (payoutAt r)) baseRows)).
Proof.
  unfold kpi. intros H1 H2.
  destruct (paidOf baseRows f1) as [p1|] eqn:Ep1; [|discriminate].
  destruct (payoutOf baseRows f1) as [q1|] eqn:Eq1; [|discriminate].
  destruct (paidOf baseRows f2) as [p2|] eqn:Ep2; [|discriminate].
  destruct (payoutOf baseRows f2) as [q2|] eqn:Eq2; [|discriminate].
  cbn in H1, H2.
  destruct (listRows _ _ _ _ baseRows f1) as [l1|]; [|discriminate].
  destruct (listRows _ _ _ _ baseRows f2) as [l2|]; [|discriminate].
  cbn in H1, H2. injection H1 as <-. injection H2 as <-. cbn.
  split; [|split].
  - intros Hs He. unfold paidRows in Ep1, Ep2.
    rewrite Hs, He in Ep1. rewrite Ep1 in Ep2. now injection Ep2 as ->.
  - intros Hs He. unfold payoutRows in Eq1, Eq2.
    rewrite Hs, He in Eq1. rewrite Eq1 in Eq2. now injection Eq2 as ->.
  - destruct (filterByDate_by_selected_date _ _ _ _ _ Ep1) as [kp ->].
    destruct (filterByDate_by_selected_date _ _ _ _ _ Eq1) as [kq ->].
    exists kp, kq. auto.
Qed.

End DateWindows.

Lemma kpi_date_windows_independent_witness :
  let tis : Z -> jsstring := fun _ => [] in
  let get : Date -> num := fun _ => dec 1 0 in
  let row := mkRow [] (str "Mix bundle") [] [] (dec 1 0) (dec 10 0) (dec 50 0)
                   (Some 5) None "Mix" in
  let f1 := mkFilters [] [] [] [] in
  let f2 := mkFilters [] [] (str "2024-01-15") (str "2024-01-31") in
  ∃ k1 k2,
    kpi tis epoch_host get get get COST_DEFAULTS ∅ [row] f1 = Some k1
    ∧ kpi tis epoch_host get get get COST_DEFAULTS ∅ [row] f2 = Some k2
    ∧ kpi_payoutCny k1 ≠ kpi_payoutCny k2
    ∧ kpi_gmvUsd k1 = kpi_gmvUsd k2.
Proof.
  intros tis get row f1 f2.
  destruct (kpi tis epoch_host get get get COST_DEFAULTS ∅ [row] f1)
    as [k1|] eqn:E1; [|vm_compute in E1; discriminate E1].
  destruct (kpi tis epoch_host get get get COST_DEFAULTS ∅ [row] f2)
    as [k2|] eqn:E2; [|vm_compute in E2; discriminate E2].
  exists k1, k2. repeat split.
  - vm_compute in E1, E2. injection E1 as <-. injection E2 as <-.
    vm_compute. discriminate.
  - apply (proj1 (kpi_date_windows_independent tis epoch_host get get get
                    COST_DEFAULTS ∅ [row] f1 f2 k1 k2 E1 E2));
      reflexivity.
Defined.

(** *** Sorting, median and percentile *)

Section SortFacts.

Variable comparefn : num -> num -> num.

Abbreviation after := (sorts_after comparefn).
Abbreviation precedes := (may_precede comparefn).
Abbreviation consistent := (consistent_on comparefn).

Lemma consistent_on_total (l : list num) (x y : num) :
  consistent l = true → In x l → In y l →
  after x y = true → precedes y x.
Proof.
  unfold consistent_on, precedes. intros H Hx Hy Hxy.
  rewrite forallb_forall in H. specialize (H x Hx).
  rewrite forallb_forall in H. specialize (H y Hy).
  apply andb_prop in H as [H _]. rewrite Hxy in H. cbn in H.
  now apply negb_true_iff in H.
Qed.

Lemma consistent_on_trans (l : list num) (x y z : num) :
  consistent l = true → In x l → In y l → In z l →
  precedes x y → precedes y z → precedes x z.
Proof.
  unfold consistent_on, precedes. intros H Hx Hy Hz Hxy Hyz.
  rewrite forallb_forall in H. specialize (H x Hx).
  rewrite forallb_forall in H. specialize (H y Hy).
  apply andb_prop in H as [_ H].
  rewrite forallb_forall in H. specialize (H z Hz).
  rewrite Hxy, Hyz in H. cbn in H. now apply negb_true_iff in H.
Qed.

Lemma insert_sorted_perm (x : num) (l : list num) :
  Permutation (insert_sorted comparefn x l) (x :: l).
Proof.
  induction l as [|y l IH]; cbn; [reflexivity|].
  destruct (after x y); [|reflexivity].
  rewrite IH. apply perm_swap.
Qed.

Lemma Array_sort_perm (l : list num) :
  Permutation (Array_sort comparefn l) l.
Proof.
  induction l as [|x l IH]; cbn; [reflexivity|].
  rewrite insert_sorted_perm. now rewrite IH.
Qed.

Lemma Array_sort_length (l : list num) :
  length (Array_sort comparefn l) = length l.
Proof. apply Permutation_length, Array_sort_perm. Qed.

Lemma insert_sorted_sorted (s : list num) (x : num) (l : list num) :
  consistent s = true → In x s → Forall (fun y => In y s) l →
  StronglySorted precedes l →
  StronglySorted precedes (insert_sorted comparefn x l).
Proof.
  intros Hc Hx Hin Hs.
  induction l as [|y l IH]; cbn.
  - repeat constructor.
  - apply Forall_cons_iff in Hin as [Hy Hin].
    apply StronglySorted_inv in Hs as [Hs Hall].
    destruct (after x y) eqn:E.
    + constructor; [now apply IH|].
      rewrite (insert_sorted_perm x l). constructor; trivial.
      now apply (consistent_on_total s x y).
    + constructor; [now constructor|].
      constructor; trivial.
      apply Forall_forall. intros z Hz.
      rewrite Forall_forall in Hall, Hin.
      apply (consistent_on_trans s x y z); auto.
Qed.

Lemma Array_sort_sorted_sub (s l : list num) :
  consistent s = true → Forall (fun y => In y s) l →
  StronglySorted precedes (Array_sort comparefn l).
Proof.
  intros Hc. induction l as [|x l IH]; cbn; intros Hin.
  - constructor.
  - apply Forall_cons_iff in Hin as [Hx Hin].
    apply (insert_sorted_sorted s); auto.
    apply Forall_forall. intros y Hy. rewrite Forall_forall in Hin.
    apply Hin. now rewrite <- (Array_sort_perm l).
Qed.

(** With a consistent comparator the result is the ordered rearrangement
    of the input. *)
Lemma Array_sort_sorted (l : list num) :
  consistent l = true →
  StronglySorted precedes (Array_sort comparefn l).
Proof.
  intros Hc. apply (Array_sort_sorted_sub l); trivial.
  apply Forall_forall. intros y Hy. now apply list_elem_of_In.
Qed.

End SortFacts.

(** *** Facts on binary64 arithmetic used by the index of [percentile] *)

Section FloatFacts.

Lemma digits2_pos_iter (p k : positive) :
  digits2_pos (Pos.iter xO p k) = (digits2_pos p + k)%positive.
Proof.
  induction k using Pos.peano_ind.
  - cbn. lia.
  - rewrite Pos.iter_succ. cbn. rewrite IHk. lia.
Qed.

Lemma Zpos_iter_xO (p k : positive) :
  Zpos (Pos.iter xO p k) = Zpos p * 2 ^ Zpos k.
Proof.
  induction k using Pos.peano_ind.
  - cbn. lia.
  - rewrite Pos.iter_succ, Pos2Z.inj_succ, Z.pow_succ_r by lia.
    rewrite Pos2Z.inj_xO, IHk. lia.
Qed.

Lemma size_bounds (p : positive) :
  2 ^ (Zpos (Pos.size p) - 1) <= Zpos p < 2 ^ Zpos (Pos.size p).
Proof.
  pose proof (Pos.size_gt p) as Hg. pose proof (Pos.size_le p) as Hl.
  apply Pos2Z.pos_lt_pos in Hg. apply Pos2Z.pos_le_pos in Hl.
  rewrite Pos2Z.inj_pow in Hg, Hl.
  change (Z.pos p~0) with (2 * Z.pos p) in Hl.
  assert (E : 2 ^ Zpos (Pos.size p) = 2 * 2 ^ (Zpos (Pos.size p) - 1)).
  { rewrite <- Z.pow_succ_r by lia. f_equal. lia. }
  lia.
Qed.

Lemma fexp_eq (d : Z) : -1021 <= d → fexp prec emax d = d - 53.
Proof. unfold fexp, SpecFloat.emin, prec, emax. lia. Qed.

(** A mantissa of exactly 53 digits in the exponent range is kept as is. *)
Lemma binary_round_aux_canonical (s : bool) (m : positive) (e : Z) :
  Zpos (digits2_pos m) = 53 → -1074 <= e <= 971 →
  binary_round_aux prec emax s (Zpos m) e loc_Exact = S754_finite s m e.
Proof.
  intros Hd He.
  unfold binary_round_aux, shr_fexp. cbn [Zdigits2 shr_record_of_loc].
  rewrite Hd, fexp_eq by lia.
  replace (53 + e - 53 - e) with 0 by lia. cbn [shr shr_m loc_of_shr_record round_nearest_even Zdigits2].
  rewrite Hd, fexp_eq by lia.
  replace (53 + e - 53 - e) with 0 by lia. cbn [shr shr_m].
  replace (e <=? emax - prec) with true; trivial.
  symmetry. apply Z.leb_le. unfold emax, prec. lia.
Qed.

Lemma size_le_53 (p : positive) : Zpos p < 2 ^ 53 → Zpos (Pos.size p) <= 53.
Proof.
  intros Hp. pose proof (size_bounds p) as Hs.
  destruct (Z.le_gt_cases (Zpos (Pos.size p)) 53) as [H|H]; trivial.
  assert (2 ^ 53 <= 2 ^ (Zpos (Pos.size p) - 1)) by (apply Z.pow_le_mono_r; lia).
  lia.
Qed.

Lemma canon_mant_value (p : positive) :
  Zpos p < 2 ^ 53 →
  Zpos (canon_mant p) = Zpos p * 2 ^ (- canon_exp p)
  ∧ Zpos (digits2_pos (canon_mant p)) = 53
  ∧ shl_align p 0 (Zpos (Pos.size p) - 53) = (canon_mant p, canon_exp p).
Proof.
  intros Hp. pose proof (size_le_53 p Hp) as Hs.
  unfold canon_mant, canon_exp, shl_align.
  destruct (Zpos (Pos.size p) - 53 - 0) as [|d|d] eqn:E; try lia; cbn [fst].
  - assert (E53 : Zpos (Pos.size p) = 53) by lia.
    change (digits2_pos p) with (Pos.size p).
    repeat split; [rewrite E53; cbn; lia | lia | f_equal; lia].
  - rewrite Zpos_iter_xO, digits2_pos_iter.
    change (digits2_pos p) with (Pos.size p).
    repeat split; try lia. do 2 f_equal. lia.
Qed.

Lemma num_of_pos_canonical (p : positive) :
  Zpos p < 2 ^ 53 →
  num_of_Z (Zpos p) = S754_finite false (canon_mant p) (canon_exp p).
Proof.
  intros Hp. pose proof (size_le_53 p Hp) as Hs.
  destruct (canon_mant_value p Hp) as (Hv & Hd & Ha).
  unfold num_of_Z, binary_normalize, binary_round.
  change (digits2_pos p) with (Pos.size p). rewrite fexp_eq by lia.
  replace (Zpos (Pos.size p) + 0 - 53) with (Zpos (Pos.size p) - 53) by lia.
  rewrite Ha. apply binary_round_aux_canonical; trivial.
  unfold canon_exp. lia.
Qed.

(** A non-negative integer below 2^53 is read back as an array index. *)
Lemma array_index_num_of_Z (z : Z) :
  0 <= z < 2 ^ 53 → array_index (num_of_Z z) = Some (Z.to_nat z).
Proof.
  intros Hz. destruct z as [|p|p]; try lia; [reflexivity|].
  rewrite num_of_pos_canonical by lia.
  destruct (canon_mant_value p) as (Hv & _ & _); [lia|].
  pose proof (size_le_53 p ltac:(lia)) as Hs.
  unfold array_index, canon_exp in *.
  destruct (0 <=? Zpos (Pos.size p) - 53) eqn:E.
  - apply Z.leb_le in E. rewrite Hv.
    replace (Zpos (Pos.size p) - 53) with 0 by lia. cbn. f_equal. lia.
  - rewrite Hv. rewrite Z_mod_mult. cbn [Z.eqb].
    rewrite Z_div_mult; [reflexivity|]. apply Z.lt_gt, Z.pow_pos_nonneg; lia.
Qed.

(** On integers below 2^53 the comparison of Numbers is the comparison of
    the integers. *)
Lemma size_mono (a b : positive) :
  Zpos (Pos.size a) < Zpos (Pos.size b) → Zpos a < Zpos b.
Proof.
  intros H. pose proof (size_bounds a). pose proof (size_bounds b).
  assert (2 ^ Zpos (Pos.size a) <= 2 ^ (Zpos (Pos.size b) - 1))
    by (apply Z.pow_le_mono_r; lia).
  lia.
Qed.

Lemma compare_num_of_pos (a b : positive) :
  Zpos a < 2 ^ 53 → Zpos b < 2 ^ 53 →
  SFcompare (num_of_Z (Zpos a)) (num_of_Z (Zpos b)) = Some (Zpos a ?= Zpos b).
Proof.
  intros Ha Hb. rewrite !num_of_pos_canonical by trivial.
  destruct (canon_mant_value a Ha) as (Hva & _ & _).
  destruct (canon_mant_value b Hb) as (Hvb & _ & _).
  unfold SFcompare, canon_exp in *. f_equal.
  destruct (Z.compare_spec (Zpos (Pos.size a) - 53) (Zpos (Pos.size b) - 53))
    as [E|E|E].
  - assert (Es : Zpos (Pos.size a) = Zpos (Pos.size b)) by lia.
    rewrite Es in Hva.
    change (Pos.compare_cont Eq (canon_mant a) (canon_mant b))
      with (Zpos (canon_mant a) ?= Zpos (canon_mant b)).
    rewrite Hva, Hvb.
    assert (0 < 2 ^ (- (Zpos (Pos.size b) - 53)))
      by (apply Z.pow_pos_nonneg; pose proof (size_le_53 b Hb); lia).
    destruct (Z.compare_spec (Zpos a) (Zpos b)) as [E'|E'|E'].
    + rewrite E'. apply Z.compare_refl.
    + apply Z.compare_lt_iff. nia.
    + apply Z.compare_gt_iff. nia.
  - symmetry. apply Z.compare_lt_iff. apply size_mono. lia.
  - symmetry. apply Z.compare_gt_iff. apply size_mono. lia.
Qed.

(** Right shifts of a non-negative mantissa. *)
Lemma shr_1_m (r : shr_record) :
  0 <= shr_m r → shr_m (shr_1 r) = shr_m r / 2.
Proof.
  destruct r as [m r s]. cbn [shr_m]. intros Hm. unfold shr_1.
  destruct m as [|[q|q|]|q]; cbn [shr_m]; try lia.
  - reflexivity.
  - rewrite Pos2Z.inj_xI. apply Z.div_unique with 1; lia.
  - rewrite Pos2Z.inj_xO. apply Z.div_unique with 0; lia.
  - reflexivity.
Qed.

Lemma shr_iter_m (k : positive) :
  ∀ r, 0 <= shr_m r → shr_m (SpecFloat.iter_pos shr_1 k r) = shr_m r / 2 ^ Zpos k.
Proof.
  induction k as [k IH|k IH|]; intros r Hr; cbn [SpecFloat.iter_pos].
  - assert (H1 : 0 <= shr_m (shr_1 r))
      by (rewrite shr_1_m by trivial; apply Z.div_pos; lia).
    assert (H2 : 0 <= shr_m (SpecFloat.iter_pos shr_1 k (shr_1 r)))
      by (rewrite IH by trivial; apply Z.div_pos; lia).
    rewrite IH, IH, shr_1_m by trivial.
    rewrite !Z.div_div by lia. f_equal.
    replace (Zpos k~1) with (1 + Zpos k + Zpos k) by lia.
    rewrite !Z.pow_add_r by lia. change (2 ^ 1) with 2. ring.
  - assert (H2 : 0 <= shr_m (SpecFloat.iter_pos shr_1 k r))
      by (rewrite IH by trivial; apply Z.div_pos; lia).
    rewrite IH, IH by trivial.
    rewrite !Z.div_div by lia. f_equal.
    replace (Zpos k~0) with (Zpos k + Zpos k) by lia.
    rewrite !Z.pow_add_r by lia. ring.
  - rewrite shr_1_m by trivial. reflexivity.
Qed.

Lemma Zdigits2_bound (m : Z) : 0 <= m → m < 2 ^ Zdigits2 m.
Proof.
  destruct m as [|q|q]; cbn [Zdigits2]; try lia.
  intros _. change (digits2_pos q) with (Pos.size q). apply size_bounds.
Qed.

Lemma shr_record_of_loc_m (m : Z) (l : location) :
  shr_m (shr_record_of_loc m l) = m.
Proof. destruct l as [|[]]; reflexivity. Qed.

(** After [shr_fexp] a non-negative mantissa has at most 53 digits. *)
Lemma shr_fexp_bound (m e : Z) (l : location) :
  0 <= m → 0 <= shr_m (fst (shr_fexp prec emax m e l)) < 2 ^ 53.
Proof.
  intros Hm. pose proof (Zdigits2_bound m Hm) as Hd.
  unfold shr_fexp, shr.
  assert (Hf : Zdigits2 m + e - 53 <= fexp prec emax (Zdigits2 m + e))
    by (unfold fexp, prec; lia).
  assert (Hd0 : 0 <= Zdigits2 m) by (destruct m; cbn; lia).
  destruct (fexp prec emax (Zdigits2 m + e) - e) as [|k|k] eqn:En;
    cbn [fst]; rewrite ?shr_iter_m, ?shr_record_of_loc_m;
    rewrite ?shr_record_of_loc_m; trivial.
  - split; [lia|].
    apply Z.lt_le_trans with (2 ^ Zdigits2 m); trivial.
    apply Z.pow_le_mono_r; lia.
  - split; [apply Z.div_pos; lia|].
    apply Z.div_lt_upper_bound; [lia|].
    rewrite <- Z.pow_add_r by lia.
    apply Z.lt_le_trans with (2 ^ Zdigits2 m); trivial.
    apply Z.pow_le_mono_r; lia.
  - split; [lia|].
    apply Z.lt_le_trans with (2 ^ Zdigits2 m); trivial.
    apply Z.pow_le_mono_r; lia.
Qed.

Lemma round_nearest_even_nonneg (m : Z) (l : location) :
  0 <= m → 0 <= round_nearest_even m l.
Proof.
  intros Hm. destruct l as [|[]]; cbn; try lia.
  destruct (Z.even m); lia.
Qed.

(** Rounding a non-negative mantissa gives a zero, an infinity or a finite
    Number of the given sign with a mantissa below 2^53; never [NaN]. *)
Lemma binary_round_aux_bounded (sx : bool) (mx ex : Z) (lx : location) :
  0 <= mx →
  match binary_round_aux prec emax sx mx ex lx with
  | S754_zero s | S754_infinity s => s = sx
  | S754_finite s m e => s = sx ∧ Zpos m < 2 ^ 53
  | S754_nan => False
  end.
Proof.
  intros Hm. unfold binary_round_aux.
  destruct (shr_fexp prec emax mx ex lx) as [mrs' e'] eqn:E1.
  pose proof (shr_fexp_bound mx ex lx Hm) as H1. rewrite E1 in H1. cbn in H1.
  pose proof (round_nearest_even_nonneg (shr_m mrs') (loc_of_shr_record mrs')
                ltac:(lia)) as Hr.
  destruct (shr_fexp prec emax _ e' loc_Exact) as [mrs'' e''] eqn:E2.
  pose proof (shr_fexp_bound _ e' loc_Exact Hr) as H2.
  rewrite E2 in H2. cbn in H2.
  destruct (shr_m mrs'') as [|q|q]; [reflexivity| |lia].
  destruct (e'' <=? emax - prec); [split; [reflexivity | lia] | reflexivity].
Qed.

Lemma mul_nonneg (x y : num) :
  nonneg_finite x → nonneg_finite y →
  match mul x y with
  | S754_zero _ => True
  | S754_infinity s => s = false
  | S754_finite s m e => s = false ∧ Zpos m < 2 ^ 53
  | S754_nan => False
  end.
Proof.
  destruct x as [sx|sx| |[] mx ex], y as [sy|sy| |[] my ey]; cbn;
    try contradiction; trivial.
  intros _ _.
  pose proof (binary_round_aux_bounded false (Zpos (mx * my)) (ex + ey)
                loc_Exact ltac:(lia)) as H.
  destruct (binary_round_aux _ _ _ _ _ _); trivial.
Qed.

Lemma nonneg_of_bounds (p : num) :
  le (dec 0 0) p = true → le p (dec 1 0) = true → nonneg_finite p.
Proof.
  destruct p as [s|[]| |[] m e]; cbn; trivial; discriminate.
Qed.

Lemma floor_shape_of_product (x y : num) :
  nonneg_finite x → nonneg_finite y →
  floor_shape (Math_max (dec 0 0) (Math_floor (mul x y))).
Proof.
  intros Hx Hy. pose proof (mul_nonneg x y Hx Hy) as H.
  destruct (mul x y) as [s|s| |s m e]; try contradiction.
  - cbn. constructor.
  - subst s. cbn. constructor.
  - destruct H as [-> Hm]. unfold Math_floor.
    destruct (0 <=? e) eqn:E.
    + apply Z.leb_le in E. cbn. now constructor.
    + apply Z.leb_gt in E. unfold floorZ. rewrite (proj2 (Z.leb_gt 0 e) E).
      fold (num_of_Z (Zpos m / 2 ^ (- e))).
      assert (Hp : 0 < 2 ^ (- e)) by (apply Z.pow_pos_nonneg; lia).
      assert (Hz : 0 <= Zpos m / 2 ^ (- e) <= Zpos m).
      { split; [apply Z.div_pos; lia|].
        apply Z.div_le_upper_bound; [lia|]. nia. }
      destruct (Zpos m / 2 ^ (- e)) as [|r|r] eqn:Ez; try lia.
      * cbn. constructor.
      * assert (Hr : Zpos r < 2 ^ 53) by lia.
        rewrite (num_of_pos_canonical r Hr). cbn.
        rewrite <- (num_of_pos_canonical r Hr). now constructor.
Qed.

Lemma min_index (L : Z) (w : num) :
  0 <= L < 2 ^ 53 → floor_shape w →
  ∃ k, array_index (Math_min (num_of_Z L) w) = Some k ∧ (Z.of_nat k <= L).
Proof.
  intros HL Hw.
  destruct L as [|q|q]; try lia.
  - (* a single element *)
    exists 0%nat. split; [|lia].
    destruct Hw as [| |m e He|r Hr]; try reflexivity.
    rewrite (num_of_pos_canonical r Hr). reflexivity.
  - assert (Hq : Zpos q < 2 ^ 53) by lia.
    pose proof (array_index_num_of_Z (Zpos q) ltac:(lia)) as HiL.
    destruct Hw as [| |m e He|r Hr].
    + exists 0%nat. split; [|lia].
      rewrite (num_of_pos_canonical q Hq). reflexivity.
    + exists (Z.to_nat (Zpos q)). split; [|lia].
      rewrite (num_of_pos_canonical q Hq) in *. exact HiL.
    + destruct (canon_mant_value q Hq) as (Hv & _ & _).
      pose proof (size_le_53 q Hq) as Hs.
      rewrite (num_of_pos_canonical q Hq) in *.
      unfold Math_min, SFcompare.
      destruct (Z.compare_spec (canon_exp q) e) as [E|E|E].
      * destruct (Pos.compare_cont Eq (canon_mant q) m) eqn:Ec.
        -- exists (Z.to_nat (Zpos q)). split; [exact HiL | lia].
        -- exists (Z.to_nat (Zpos q)). split; [exact HiL | lia].
        -- change (Pos.compare_cont Eq (canon_mant q) m)
             with (Zpos (canon_mant q) ?= Zpos m) in Ec.
           apply Z.compare_gt_iff in Ec.
           unfold canon_exp in *.
           assert (Es : Zpos (Pos.size q) = 53) by lia.
           rewrite Es in *. subst e. cbn in Hv.
           exists (Z.to_nat (Zpos m)). split; [|lia].
           cbn. f_equal. lia.
      * exists (Z.to_nat (Zpos q)). split; [exact HiL | lia].
      * unfold canon_exp in *. lia.
    + pose proof (compare_num_of_pos q r Hq Hr) as Hc.
      unfold Math_min. rewrite Hc.
      destruct (Z.compare_spec (Zpos q) (Zpos r)) as [E|E|E].
      * exists (Z.to_nat (Zpos q)). split; [|lia].
        rewrite (num_of_pos_canonical q Hq) in *. exact HiL.
      * exists (Z.to_nat (Zpos q)). split; [exact HiL | lia].
      * exists (Z.to_nat (Zpos r)). split; [|lia].
        apply array_index_num_of_Z. lia.
Qed.

(** For [0 <= p <= 1] the index of [percentile] names an element. *)
Lemma percentile_idx_in_range (n : nat) (p : num) :
  (1 <= n)%nat → Z.of_nat n <= 2 ^ 53 → nonneg_finite p →
  ∃ k, array_index (percentile_idx n p) = Some k ∧ (k < n)%nat.
Proof.
  intros Hn Hb Hp. unfold percentile_idx.
  assert (HL : 0 <= Z.of_nat n - 1 < 2 ^ 53) by lia.
  assert (Hl : nonneg_finite (num_of_Z (Z.of_nat n - 1))).
  { destruct (Z.of_nat n - 1) as [|q|q] eqn:E; try lia; [exact I|].
    rewrite num_of_pos_canonical by lia. exact I. }
  destruct (min_index _ _ HL (floor_shape_of_product _ _ Hl Hp))
    as (k & Hk & Hle).
  exists k. split; [exact Hk | lia].
Qed.

End FloatFacts.

(** *** median and percentile of the report *)

Section Statistics.

(** C8, as stated, fails for [percentile]: of the five values 1..5 the
    nearest-rank 90th percentile is 5 (rank [ceil(4.5) = 5]); the function
    takes index [floor(4 * 0.9) = 3] and returns 4. *)
Lemma percentile_nearest_rank_counterexample :
  ¬ (∀ (arr : list num) (p : num),
       arr ≠ [] → le (dec 0 0) p = true → le p (dec 1 0) = true →
       percentile arr p = nearest_rank arr p).
Proof.
  intros H.
  specialize (H (nums [5; 3; 1; 4; 2]) (dec 9 (-1))).
  assert (E1 : percentile (nums [5; 3; 1; 4; 2]) (dec 9 (-1))
               = Some (num_of_Z 4)) by (vm_compute; reflexivity).
  assert (E2 : nearest_rank (nums [5; 3; 1; 4; 2]) (dec 9 (-1))
               = Some (num_of_Z 5)) by (vm_compute; reflexivity).
  rewrite E1, E2 in H.
  assert (Some (num_of_Z 4) = Some (num_of_Z 5)) as E
    by (apply H; [discriminate | reflexivity | reflexivity]).
  vm_compute in E. discriminate E.
Qed.

(** The index formula on the percentiles the report asks for, and one case
    in which the rounded product reaches the next integer. *)
Example percentile_idx_examples :
  percentile_idx 5 (dec 9 (-1)) = num_of_Z 3
  ∧ percentile_idx 5 (dec 1 (-1)) = num_of_Z 0
  ∧ percentile_idx 2 (dec 9 (-1)) = num_of_Z 0
  ∧ percentile_idx 11 (dec 7 (-1)) = num_of_Z 7
  ∧ percentile_idx 11 (dec 1 0) = num_of_Z 10.
Proof. repeat split; vm_compute; reflexivity. Qed.

Lemma sorted_lookup (a : list num) (i : nat) :
  (i < length a)%nat → ∃ x, a !! i = Some x ∧ elt a i = x.
Proof.
  intros H. destruct (lookup_lt_is_Some_2 a i H) as [x Hx].
  exists x. split; trivial. unfold elt. now rewrite Hx.
Qed.

(** C8 (amended).  For a non-empty list on whose elements [x - y] is a
    consistent comparator, and [0 <= p <= 1]: the working copy is the
    ascending rearrangement of the list; [percentile] returns its element at
    the zero-based index [Math.min(n - 1, Math.max(0, Math.floor((n - 1) * p)))],
    which always names an element; [median] returns the middle element for
    an odd length and the average of the two middle elements for an even
    length. *)
Theorem percentile_and_median (arr : list num) (p : num) :
  arr ≠ [] →
  Z.of_nat (length arr) < 2 ^ 32 →
  consistent_on ascending arr = true →
  le (dec 0 0) p = true → le p (dec 1 0) = true →
  let a := Array_sort ascending arr in
  let n := length arr in
  Permutation a arr
  ∧ StronglySorted (may_precede ascending) a
  ∧ (∃ k x, array_index (percentile_idx n p) = Some k ∧ (k < n)%nat
            ∧ a !! k = Some x ∧ percentile arr p = Some x)
  ∧ (Nat.even n = false →
     ∃ x, a !! (n / 2)%nat = Some x ∧ median arr = x)
  ∧ (Nat.even n = true →
     ∃ x y, a !! (n / 2 - 1)%nat = Some x ∧ a !! (n / 2)%nat = Some y
            ∧ median arr = div (add x y) (dec 2 0)).
Proof.
  intros Hne Hlen Hc Hp0 Hp1 a n.
  assert (Hla : length a = n) by apply Array_sort_length.
  assert (Hn : (1 <= n)%nat).
  { subst n. destruct arr; [contradiction | cbn; lia]. }
  split; [apply Array_sort_perm|].
  split; [now apply Array_sort_sorted|].
  split; [|split].
  - destruct (percentile_idx_in_range n p Hn ltac:(lia)
                (nonneg_of_bounds p Hp0 Hp1)) as (k & Hk & Hlt).
    destruct (sorted_lookup a k ltac:(lia)) as (x & Hx & _).
    exists k, x. repeat split; trivial.
    unfold percentile. destruct arr as [|y arr']; [contradiction|].
    fold a. rewrite Hla, Hk. exact Hx.
  - intros Hodd.
    assert (Hmid : (n / 2 < length a)%nat).
    { rewrite Hla. apply Nat.div_lt; lia. }
    destruct (sorted_lookup a _ Hmid) as (x & Hx & Ex).
    exists x. split; trivial.
    unfold median. destruct arr as [|y arr']; [contradiction|].
    fold a. rewrite Hla, Hodd. exact Ex.
  - intros Heven.
    assert (Hmid : (n / 2 < length a)%nat).
    { rewrite Hla. apply Nat.div_lt; lia. }
    destruct (sorted_lookup a _ Hmid) as (y & Hy & Ey).
    destruct (sorted_lookup a (n / 2 - 1)%nat ltac:(lia)) as (x & Hx & Ex).
    exists x, y. repeat split; trivial.
    unfold median. destruct arr as [|z arr']; [contradiction|].
    fold a. rewrite Hla, Heven, Ex, Ey. reflexivity.
Qed.

End Statistics.

Lemma percentile_and_median_witness :
  percentile (nums [5; 3; 1; 4; 2]) (dec 9 (-1)) = Some (num_of_Z 4)
  ∧ median (nums [5; 3; 1; 4; 2]) = num_of_Z 3
  ∧ median (nums [5; 3; 1; 2]) = dec 25 (-1).
Proof.
  pose proof (percentile_and_median (nums [5; 3; 1; 4; 2]) (dec 9 (-1))
                ltac:(discriminate) ltac:(vm_compute; reflexivity)
                ltac:(vm_compute; reflexivity) eq_refl eq_refl)
    as (_ & _ & (k & x & Hk & _ & Hx & Hp) & Hodd & _).
  pose proof (percentile_and_median (nums [5; 3; 1; 2]) (dec 5 (-1))
                ltac:(discriminate) ltac:(vm_compute; reflexivity)
                ltac:(vm_compute; reflexivity) eq_refl eq_refl)
    as (_ & _ & _ & _ & Heven).
  split; [|split].
  - rewrite Hp. vm_compute in Hk. injection Hk as <-.
    vm_compute in Hx. injection Hx as <-. vm_compute. reflexivity.
  - destruct (Hodd eq_refl) as (y & Hy & ->).
    vm_compute in Hy. injection Hy as <-. vm_compute. reflexivity.
  - destruct (Heven eq_refl) as (y & z & Hy & Hz & ->).
    vm_compute in Hy, Hz. injection Hy as <-. injection Hz as <-.
    vm_compute. reflexivity.
Defined.

(** *** Editing the cost tables *)

Section Editing.

Variable toISOString : Z -> jsstring.

Local Abbreviation unitCost := (costPerLotForRow toISOString).
Local Abbreviation idOf := (rowId toISOString).

Lemma finite_or_finite (d : gmap string num) (k : string) (other : num) :
  isFinite other = true → isFinite (finite_or d k other) = true.
Proof.
  intros H. unfold finite_or. destruct (d !! k) as [v|]; trivial.
  destruct (isFinite v) eqn:E; trivial.
Qed.

(** X1.  The effective unit cost of a row and the default cost of a
    category are finite Numbers whatever the two tables hold: a missing,
    [NaN] or infinite entry never reaches the cost and profit columns. *)
Theorem unit_cost_finite (costMap ov : gmap string num) (r : Row) :
  isFinite (unitCost costMap ov r) = true
  ∧ isFinite (costPerLotOfGroup costMap (titleGroup r)) = true.
Proof.
  unfold costPerLotForRow, costPerLotOfGroup.
  split; repeat apply finite_or_finite; reflexivity.
Qed.

(** X2.  Typing a text that reads as a finite Number into the cost input of
    a row makes that Number the unit cost of the row, and of every row with
    the same identifier; the cost of rows with another identifier is
    unchanged. *)
Theorem override_edit_read (costMap ov : gmap string num) (r r' : Row)
    (v : jsstring) :
  v ≠ [] → isFinite (StringToNumber v) = true →
  let ov' := onOverrideChange (idOf r) v ov in
  unitCost costMap ov' r = StringToNumber v
  ∧ (idOf r' = idOf r → unitCost costMap ov' r' = StringToNumber v)
  ∧ (idOf r' ≠ idOf r → unitCost costMap ov' r' = unitCost costMap ov r').
Proof.
  intros Hv Hf ov'. subst ov'. unfold onOverrideChange.
  destruct v as [|c v]; [contradiction|]. rewrite Hf. cbn [negb].
  unfold costPerLotForRow, finite_or.
  split; [|split].
  - now rewrite lookup_insert_eq, Hf.
  - intros ->. now rewrite lookup_insert_eq, Hf.
  - intros Hne. now rewrite lookup_insert_ne.
Qed.

Lemma onClearOverrides_empty (prev : gmap string num) :
  onClearOverrides prev = ∅.
Proof.
  unfold onClearOverrides.
  destruct (decide (size prev = 0%nat)) as [H|H]; trivial.
  now apply map_size_empty_iff.
Qed.

(** X3.  Emptying the cost input of a row, or typing a text that is not a
    finite Number, does what the restore button of the row does: the
    override is removed and the row costs the default of its category;
    rows with another identifier are unchanged.  After the button that
    clears all overrides, every row costs the default of its category. *)
Theorem override_clear_read (costMap ov : gmap string num) (r r' : Row)
    (v : jsstring) :
  v = [] ∨ isFinite (StringToNumber v) = false →
  let ov' := onOverrideChange (idOf r) v ov in
  ov' = onOverrideRestore (idOf r) ov
  ∧ unitCost costMap ov' r = costPerLotOfGroup costMap (titleGroup r)
  ∧ (idOf r' ≠ idOf r → unitCost costMap ov' r' = unitCost costMap ov r')
  ∧ unitCost costMap (onClearOverrides ov) r'
    = costPerLotOfGroup costMap (titleGroup r').
Proof.
  intros Hv ov'.
  assert (E : ov' = delete (idOf r) ov).
  { subst ov'. unfold onOverrideChange. destruct Hv as [-> | Hf]; trivial.
    destruct v; trivial. now rewrite Hf. }
  rewrite E. unfold onOverrideRestore, costPerLotForRow, finite_or.
  split; [reflexivity|]. split; [|split].
  - now rewrite lookup_delete_eq.
  - intros Hne. now rewrite lookup_delete_ne.
  - now rewrite onClearOverrides_empty, lookup_empty.
Qed.

(** X4.  Editing the cost input of a category sets the default of that
    category to the Number typed, or to 0 when the text is not a finite
    Number; the defaults of the other categories, the cost of every row
    with a finite override and the cost of every row of another category
    are unchanged. *)
Theorem cost_edit_read (costMap ov : gmap string num) (g : string)
    (v : jsstring) (r : Row) :
  let cm' := onCostChange g v costMap in
  costPerLotOfGroup cm' g
  = (if isFinite (StringToNumber v) then StringToNumber v else dec 0 0)
  ∧ (∀ g', g' ≠ g → costPerLotOfGroup cm' g' = costPerLotOfGroup costMap g')
  ∧ (∀ c, ov !! idOf r = Some c → isFinite c = true →
          unitCost cm' ov r = c ∧ unitCost costMap ov r = c)
  ∧ (titleGroup r ≠ g → unitCost cm' ov r = unitCost costMap ov r).
Proof.
  intros cm'. subst cm'. unfold onCostChange, costPerLotForRow,
    costPerLotOfGroup, finite_or.
  split; [|split; [|split]].
  - rewrite lookup_insert_eq.
    destruct (isFinite (StringToNumber v)) eqn:E; [now rewrite E | reflexivity].
  - intros g' Hne. now rewrite lookup_insert_ne.
  - intros c -> ->. split; reflexivity.
  - intros Hne. now rewrite lookup_insert_ne.
Qed.

Lemma apply_edit_finite (st : gmap string num * gmap string num) (e : edit) :
  all_finite st.1 → all_finite st.2 →
  all_finite (apply_edit st e).1 ∧ all_finite (apply_edit st e).2.
Proof.
  unfold all_finite. intros H1 H2. destruct e as [id v|id| |g v]; cbn.
  - split; trivial. unfold onOverrideChange.
    destruct v as [|c v]; [now apply map_Forall_delete|].
    destruct (isFinite (StringToNumber (c :: v))) eqn:E; cbn.
    + now apply map_Forall_insert_2.
    + now apply map_Forall_delete.
  - split; trivial. now apply map_Forall_delete.
  - split; trivial. rewrite onClearOverrides_empty. apply map_Forall_empty.
  - split; trivial. unfold onCostChange. apply map_Forall_insert_2; trivial.
    destruct (isFinite (StringToNumber v)) eqn:E; trivial.
Qed.

Lemma apply_edit_keeps_keys (st : gmap string num * gmap string num)
    (e : edit) (g : string) :
  is_Some (st.1 !! g) → is_Some ((apply_edit st e).1 !! g).
Proof.
  destruct e as [id v|id| |g' v]; cbn; trivial.
  intros H. unfold onCostChange. rewrite lookup_insert_is_Some.
  destruct (decide (g' = g)); auto.
Qed.

(** X5.  Along every sequence of edits made through the page, starting
    from tables whose values are finite, both tables keep only finite
    values and no category is ever removed from the default table; the
    unit cost of a row is then read off the tables without any fallback:
    the override if there is one, else the entry of the category, else 0
    for a category the table never had. *)
Theorem edits_keep_tables (st : gmap string num * gmap string num)
    (es : list edit) :
  all_finite st.1 → all_finite st.2 →
  let st' := fold_left apply_edit es st in
  all_finite st'.1 ∧ all_finite st'.2
  ∧ (∀ g, is_Some (st.1 !! g) → is_Some (st'.1 !! g))
  ∧ (∀ r, match st'.2 !! idOf r with
          | Some c => unitCost st'.1 st'.2 r = c
          | None => match st'.1 !! titleGroup r with
                    | Some d => unitCost st'.1 st'.2 r = d
                    | None => unitCost st'.1 st'.2 r = dec 0 0
                    end
          end).
Proof.
  revert st. induction es as [|e es IH]; intros st H1 H2.
  - cbn [fold_left]. repeat split; trivial.
    intros r. unfold costPerLotForRow, costPerLotOfGroup, finite_or.
    destruct (st.2 !! idOf r) as [c|] eqn:Ec.
    + now rewrite (H2 _ _ Ec).
    + destruct (st.1 !! titleGroup r) as [d|] eqn:Ed; trivial.
      now rewrite (H1 _ _ Ed).
  - cbn [fold_left].
    destruct (apply_edit_finite st e H1 H2) as [H1' H2'].
    destruct (IH (apply_edit st e) H1' H2') as (F1 & F2 & K & R).
    repeat split; trivial.
    intros g Hg. apply K. now apply apply_edit_keeps_keys.
Qed.

End Editing.

Lemma COST_DEFAULTS_finite : all_finite COST_DEFAULTS.
Proof.
  unfold all_finite. apply map_Forall_to_list. vm_compute.
  repeat constructor.
Qed.

Lemma override_edit_read_witness :
  let tis : Z -> jsstring := fun _ => [] in
  costPerLotForRow tis COST_DEFAULTS
    (onOverrideChange (rowId tis mix_row) (str "0.9") ∅) mix_row
  = dec 9 (-1).
Proof.
  intros tis.
  pose proof (override_edit_read tis COST_DEFAULTS ∅ mix_row mix_row
                (str "0.9") ltac:(discriminate)
                ltac:(vm_compute; reflexivity)) as (H & _).
  rewrite H. vm_compute. reflexivity.
Defined.

Lemma override_clear_read_witness :
  let tis : Z -> jsstring := fun _ => [] in
  let ov : gmap string num := {[ rowId tis mix_row := dec 9 (-1) ]} in
  costPerLotForRow tis COST_DEFAULTS
    (onOverrideChange (rowId tis mix_row) (str "abc") ov) mix_row
  = dec 2 (-1).
Proof.
  intros tis ov.
  pose proof (override_clear_read tis COST_DEFAULTS ov mix_row mix_row
                (str "abc") ltac:(right; vm_compute; reflexivity))
    as (_ & H & _).
  rewrite H. vm_compute. reflexivity.
Defined.

Lemma cost_edit_read_witness :
  costPerLotOfGroup (onCostChange "Mix" (str "0.5") COST_DEFAULTS) "OCD"
  = dec 14 0.
Proof.
  pose proof (cost_edit_read (fun _ => []) COST_DEFAULTS ∅ "Mix"
                (str "0.5") mix_row) as (_ & H & _).
  rewrite (H "OCD" ltac:(discriminate)). vm_compute. reflexivity.
Defined.

Lemma edits_keep_tables_witness :
  let tis : Z -> jsstring := fun _ => [] in
  let es := [EditCost "Mix" (str "1e999");
             EditOverride (rowId tis mix_row) (str "0.9");
             EditOverride (rowId tis mix_row) (str "x");
             ClearOverrides] in
  is_Some ((fold_left apply_edit es (COST_DEFAULTS, ∅)).1 !! "OCD").
Proof.
  intros tis es.
  pose proof (edits_keep_tables tis (COST_DEFAULTS, ∅) es
                COST_DEFAULTS_finite (map_Forall_empty _)) as (_ & _ & H & _).
  apply (H "OCD"). vm_compute. eauto.
Defined.

(** *** Row identifiers *)

Section RowId.

Variable toISOString : Z -> jsstring.

(** X6.  The fields of the identifier are joined by "|" without escaping:
    moving text across the boundary between [sku] and [name] at a "|" gives
    the same identifier, so two different rows share their override. *)
Theorem rowId_separator_ambiguity (a b c : jsstring) (r : Row) :
  rowId toISOString
    (mkRow (a ++ str "|" ++ b) c (category r) (payoutStatus r) (soldQty r)
           (gmvUsd r) (payoutCny r) (paidAt r) (payoutAt r) (titleGroup r))
  = rowId toISOString
      (mkRow a (b ++ str "|" ++ c) (category r) (payoutStatus r) (soldQty r)
             (gmvUsd r) (payoutCny r) (paidAt r) (payoutAt r) (titleGroup r)).
Proof.
  unfold rowId. f_equal. cbn [join sku name paidAt payoutAt].
  now rewrite <- !app_assoc.
Qed.

End RowId.

Lemma fnv1a_range (s : jsstring) : 0 <= fnv1a s < 2 ^ 32.
Proof.
  unfold fnv1a.
  assert (H : ∀ h, 0 <= h < 2 ^ 32 →
            0 <= fold_left (fun h c =>
                   imul (Z.lxor h (Z.of_N c mod 2 ^ 32)) 16777619) s h < 2 ^ 32).
  { induction s as [|c s IH]; intros h Hh; cbn [fold_left]; trivial.
    apply IH. unfold imul. apply Z.mod_pos_bound. lia. }
  apply H. lia.
Qed.

Lemma hashStr_fnv (s : jsstring) : hashStr s = toString36 7 (fnv1a s) "".
Proof. reflexivity. Qed.

Lemma digit36_value (d : Z) :
  0 <= d < 36 →
  value36_digit (digit36 d) = d ∧ is_digit36 (digit36 d) = true.
Proof.
  intros H.
  assert (E : d = 0 ∨ d = 1 ∨ d = 2 ∨ d = 3 ∨ d = 4 ∨ d = 5 ∨ d = 6 ∨ d = 7
              ∨ d = 8 ∨ d = 9 ∨ d = 10 ∨ d = 11 ∨ d = 12 ∨ d = 13 ∨ d = 14
              ∨ d = 15 ∨ d = 16 ∨ d = 17 ∨ d = 18 ∨ d = 19 ∨ d = 20 ∨ d = 21
              ∨ d = 22 ∨ d = 23 ∨ d = 24 ∨ d = 25 ∨ d = 26 ∨ d = 27 ∨ d = 28
              ∨ d = 29 ∨ d = 30 ∨ d = 31 ∨ d = 32 ∨ d = 33 ∨ d = 34 ∨ d = 35)
    by lia.
  repeat (destruct E as [-> | E]; [split; reflexivity|]).
  subst d. split; reflexivity.
Qed.

Lemma toString36_spec (fuel : nat) :
  ∀ n acc, 0 <= n < 36 ^ Z.of_nat fuel → (0 < fuel)%nat →
    (∀ z, value36 z (toString36 fuel n acc)
          = value36 (z * 36 ^ Z.of_nat (String.length (toString36 fuel n acc)
                                        - String.length acc) + n) acc)
    ∧ (String.length acc < String.length (toString36 fuel n acc)
       <= String.length acc + fuel)%nat
    ∧ (forall_chars is_digit36 acc = true →
       forall_chars is_digit36 (toString36 fuel n acc) = true).
Proof.
  induction fuel as [|fuel IH]; intros n acc Hn Hf; [lia|].
  cbn [toString36].
  assert (Hd : 0 <= n mod 36 < 36) by (apply Z.mod_pos_bound; lia).
  destruct (digit36_value _ Hd) as [Hv Hc].
  destruct (n / 36 =? 0) eqn:E.
  - apply Z.eqb_eq in E.
    assert (n = n mod 36) by (rewrite (Z.div_mod n 36) at 1; lia).
    split; [|split].
    + intros z. cbn [value36 String.length].
      replace (S (String.length acc) - String.length acc)%nat with 1%nat by lia.
      rewrite Hv. f_equal. change (36 ^ Z.of_nat 1) with 36. lia.
    + cbn [String.length]. lia.
    + intros Ha. cbn [forall_chars]. now rewrite Hc, Ha.
  - apply Z.eqb_neq in E.
    assert (Hq : 0 <= n / 36 < 36 ^ Z.of_nat fuel).
    { split; [apply Z.div_pos; lia|].
      apply Z.div_lt_upper_bound; [lia|].
      rewrite Nat2Z.inj_succ, Z.pow_succ_r in Hn by lia. lia. }
    assert (Hf' : (0 < fuel)%nat).
    { destruct fuel; [|lia]. cbn in Hq. lia. }
    destruct (IH (n / 36) (String (digit36 (n mod 36)) acc) Hq Hf')
      as (V & L & C).
    cbn [String.length] in L.
    split; [|split].
    + intros z. rewrite V. cbn [value36 String.length]. rewrite Hv. f_equal.
      set (k := (String.length (toString36 fuel (n / 36)
                   (String (digit36 (n mod 36)) acc)))) in *.
      replace (Z.of_nat (k - String.length acc))
        with (Z.succ (Z.of_nat (k - S (String.length acc)))) by lia.
      rewrite Z.pow_succ_r by lia.
      rewrite (Z.div_mod n 36) at 3 by lia. ring.
    + lia.
    + intros Ha. apply C. cbn [forall_chars]. now rewrite Hc, Ha.
Qed.

(** X7.  The identifier that [hashStr] returns is one to seven base-36
    digits (the seven digits of the model of [toString(36)] always
    suffice), and it is read back to the 32-bit hash word: two texts get
    the same identifier exactly when their hash words agree. *)
Theorem hashStr_shape (s s' : jsstring) :
  (1 <= String.length (hashStr s) <= 7)%nat
  ∧ forall_chars is_digit36 (hashStr s) = true
  ∧ value36 0 (hashStr s) = fnv1a s
  ∧ 0 <= fnv1a s < 2 ^ 32
  ∧ (hashStr s = hashStr s' ↔ fnv1a s = fnv1a s').
Proof.
  pose proof (fnv1a_range s) as R. pose proof (fnv1a_range s') as R'.
  assert (B : 2 ^ 32 < 36 ^ Z.of_nat 7) by (vm_compute; reflexivity).
  destruct (toString36_spec 7 (fnv1a s) "" ltac:(lia) ltac:(lia)) as (V & L & C).
  rewrite !hashStr_fnv. cbn [String.length] in L.
  assert (E : ∀ t, value36 0 (toString36 7 (fnv1a t) "") = fnv1a t).
  { intros t. pose proof (fnv1a_range t).
    destruct (toString36_spec 7 (fnv1a t) "" ltac:(lia) ltac:(lia)) as (Vt & _).
    rewrite Vt. cbn [value36]. lia. }
  repeat split; try lia.
  - apply C. reflexivity.
  - apply E.
  - intros H. rewrite <- (E s), <- (E s'). now rewrite H.
  - intros H. now rewrite H.
Qed.

(** *** What a date window keeps *)

Section Windows.

Variable localDate : num -> num -> num -> num -> num -> num -> num -> Date.
Variables getFullYear getMonth getDate : Date -> num.

Abbreviation filterBy := (filterByDate localDate getFullYear getMonth getDate).
Abbreviation windowOf := (date_window localDate getFullYear getMonth getDate).
Abbreviation parse := (parseYmd localDate).
Abbreviation paidOf := (paidRows localDate getFullYear getMonth getDate).
Abbreviation payoutOf := (payoutRows localDate getFullYear getMonth getDate).
Abbreviation listOf := (listRows localDate getFullYear getMonth getDate).

Lemma filter_true {A} (l : list A) : List.filter (fun _ => true) l = l.
Proof. induction l as [|a l IH]; cbn; congruence. Qed.

Lemma filter_sublist {A} (f : A -> bool) (l : list A) :
  sublist (List.filter f l) l.
Proof.
  induction l as [|a l IH]; cbn; [constructor|].
  destruct (f a); now constructor.
Qed.

Lemma filter_filter_same {A} (f : A -> bool) (l : list A) :
  List.filter f (List.filter f l) = List.filter f l.
Proof.
  induction l as [|a l IH]; cbn; trivial.
  destruct (f a) eqn:E; cbn; rewrite ?E; congruence.
Qed.

Lemma filter_comm {A} (f g : A -> bool) (l : list A) :
  List.filter f (List.filter g l) = List.filter g (List.filter f l).
Proof.
  induction l as [|a l IH]; cbn; trivial.
  destruct (f a) eqn:Ef, (g a) eqn:Eg; cbn; rewrite ?Ef, ?Eg; congruence.
Qed.

(** [filterByDate] is a filter by one test of the selected date. *)
Lemma filterByDate_window (input : list Row) (getDt : Row -> option Z)
    (startYmd endYmd : jsstring) :
  filterBy input getDt startYmd endYmd
  = (k ← windowOf startYmd endYmd;
     Some (List.filter (fun r => k (getDt r)) input)).
Proof.
  unfold filterByDate, date_window.
  destruct (match endYmd with
            | [] => Some None
            | _ :: _ => match parse endYmd with
                        | Some d => Some (Some (endOfDay localDate getFullYear
                                                  getMonth getDate d))
                        | None => None
                        end
            end) as [e|]; cbn; [|reflexivity].
  destruct (parse startYmd) as [st|], e as [en|]; cbn; trivial.
  now rewrite filter_true.
Qed.

Lemma filterByDate_unbounded (input : list Row) (getDt : Row -> option Z)
    (startYmd endYmd : jsstring) :
  parse startYmd = None → endYmd = [] →
  filterBy input getDt startYmd endYmd = Some input.
Proof.
  intros Hs ->. rewrite filterByDate_window. unfold date_window.
  rewrite Hs. cbn. now rewrite filter_true.
Qed.

(** X8.  [filterByDate] throws exactly when the end bound is not empty and
    [parseYmd] rejects it (the code applies [endOfDay] to [null]); a start
    bound that [parseYmd] rejects is silently no bound, and without any
    bound the input is returned as it is. *)
Theorem filterByDate_throws (input : list Row) (getDt : Row -> option Z)
    (startYmd endYmd : jsstring) :
  (filterBy input getDt startYmd endYmd = None
   ↔ endYmd ≠ [] ∧ parse endYmd = None)
  ∧ (parse startYmd = None → endYmd = [] →
     filterBy input getDt startYmd endYmd = Some input).
Proof.
  split; [|apply filterByDate_unbounded].
  rewrite filterByDate_window. unfold date_window.
  destruct endYmd as [|c e].
  - cbn. split; [intros H; discriminate H | intros [H _]; now contradiction H].
  - destruct (parse (c :: e)) as [d|] eqn:E; cbn.
    + split; [intros H; discriminate H | intros [_ H]; discriminate H].
    + split; [intros _; split; [discriminate | reflexivity] | reflexivity].
Qed.

(** X9.  A completed [filterByDate] returns a sublist of its input, in the
    order of the input; as soon as one bound is set, every row it keeps has
    the selected date (rows without it are dropped, whatever the bounds);
    without bounds nothing is dropped; and filtering the result again with
    the same bounds changes nothing. *)
Theorem filterByDate_result (input out : list Row) (getDt : Row -> option Z)
    (startYmd endYmd : jsstring) :
  filterBy input getDt startYmd endYmd = Some out →
  sublist out input
  ∧ (is_Some (parse startYmd) ∨ endYmd ≠ [] →
     ∀ r, In r out → is_Some (getDt r))
  ∧ (parse startYmd = None → endYmd = [] → out = input)
  ∧ filterBy out getDt startYmd endYmd = Some out.
Proof.
  intros H.
  assert (Hw := H). rewrite filterByDate_window in Hw.
  destruct (windowOf startYmd endYmd) as [k|] eqn:Ek; [|discriminate Hw].
  cbn in Hw. injection Hw as <-.
  split; [apply filter_sublist|]. split; [|split].
  - intros Hb r Hr. apply filter_In in Hr as [_ Hk].
    unfold date_window in Ek.
    destruct endYmd as [|c e]; cbn -[parseYmd] in Ek.
    + destruct Hb as [[d Hd] | Hb]; [|contradiction].
      rewrite Hd in Ek. injection Ek as <-.
      unfold in_window in Hk.
      destruct (getDt r); [eauto | cbn in Hk; discriminate Hk].
    + destruct (parse (c :: e)) as [d|]; cbn -[parseYmd] in Ek;
        [|discriminate Ek].
      assert (k = in_window (parse startYmd)
                    (Some (endOfDay localDate getFullYear getMonth getDate d)))
        as -> by (destruct (parse startYmd); now injection Ek as <-).
      unfold in_window in Hk.
      destruct (getDt r); [eauto | cbn in Hk; discriminate Hk].
  - intros Hs He.
    rewrite (filterByDate_unbounded input getDt startYmd endYmd Hs He) in H.
    now injection H as <-.
  - rewrite filterByDate_window, Ek. cbn. now rewrite filter_filter_same.
Qed.

(** X10.  The order list is the rows that both windows keep, in the order
    of the base rows: it completes exactly when both aggregate views
    complete, its rows are those that are in both views, and applying the
    two windows in the other order gives the same list. *)
Theorem listRows_intersection (baseRows : list Row) (f : FiltersState) :
  (is_Some (listOf baseRows f)
   ↔ is_Some (paidOf baseRows f) ∧ is_Some (payoutOf baseRows f))
  ∧ (∀ l, listOf baseRows f = Some l →
     ∃ p q, paidOf baseRows f = Some p ∧ payoutOf baseRows f = Some q
            ∧ (∀ r, In r l ↔ In r p ∧ In r q)
            ∧ sublist l p ∧ sublist l q
            ∧ (out ← filterBy baseRows payoutAt (payoutStartYmd f)
                       (payoutEndYmd f);
               filterBy out paidAt (paidStartYmd f) (paidEndYmd f)) = Some l).
Proof.
  unfold listRows, paidRows, payoutRows.
  rewrite !filterByDate_window.
  destruct (windowOf (paidStartYmd f) (paidEndYmd f)) as [kp|] eqn:Ep; cbn.
  - rewrite filterByDate_window.
    destruct (windowOf (payoutStartYmd f) (payoutEndYmd f)) as [kq|] eqn:Eq;
      cbn.
    + split; [split; eauto|].
      intros l Hl. injection Hl as <-.
      eexists _, _. repeat split; try reflexivity.
      * apply filter_In in H as [H _]. exact H.
      * apply filter_In in H as [H1 H2]. apply filter_In in H1 as [H1 _].
        apply filter_In. split; trivial.
      * intros [Hp Hq]. apply filter_In. split; trivial.
        now apply filter_In in Hq as [_ Hq].
      * apply filter_sublist.
      * rewrite filter_comm. apply filter_sublist.
      * rewrite filterByDate_window, Ep. cbn. now rewrite filter_comm.
    + split; [|intros l Hl; discriminate Hl].
      split; [intros [x Hx]; discriminate Hx
             | intros [_ [x Hx]]; discriminate Hx].
  - split; [|intros l Hl; discriminate Hl].
    split; [intros [x Hx]; discriminate Hx
           | intros [[x Hx] _]; discriminate Hx].
Qed.

End Windows.

Lemma filterByDate_throws_witness :
  let get : Date -> num := fun _ => dec 1 0 in
  filterByDate epoch_host get get get [paid_row; mix_row] paidAt []
               (str "soon") = None.
Proof.
  intros get.
  apply (proj2 (proj1 (filterByDate_throws epoch_host get get get
                         [paid_row; mix_row] paidAt [] (str "soon")))).
  split; [discriminate | vm_compute; reflexivity].
Defined.

Lemma filterByDate_result_witness :
  let get : Date -> num := fun _ => dec 1 0 in
  filterByDate epoch_host get get get [paid_row] paidAt (str "2024-01-15") []
  = Some [paid_row].
Proof.
  intros get.
  apply (proj2 (proj2 (proj2 (filterByDate_result epoch_host get get get
           [paid_row; mix_row] [paid_row] paidAt (str "2024-01-15") []
           ltac:(vm_compute; reflexivity))))).
Defined.

Lemma listRows_intersection_witness :
  let get : Date -> num := fun _ => dec 1 0 in
  is_Some (listRows epoch_host get get get [paid_row; mix_row]
             (mkFilters (str "2024-01-15") [] [] [])).
Proof.
  intros get.
  apply (proj2 (proj1 (listRows_intersection epoch_host get get get
                         [paid_row; mix_row]
                         (mkFilters (str "2024-01-15") [] [] [])))).
  split; eexists; vm_compute; reflexivity.
Defined.

(** *** The lines of the CSV export *)

Section Csv.






End Csv.



(** *** The range of the lot count *)

Section LotRange.

Lemma binary_normalize_fits (m e : Z) (s : bool) :
  fits53 (binary_normalize prec emax m e s).
Proof.
  destruct m as [|p|p]; cbn [binary_normalize]; [exact I| |];
    unfold binary_round;
    destruct (shl_align p e _) as [mz ez];
    match goal with |- fits53 (binary_round_aux _ _ ?s _ _ _) =>
      pose proof (binary_round_aux_bounded s (Zpos mz) ez loc_Exact
                    ltac:(lia)) as H end;
    destruct (binary_round_aux _ _ _ _ _ _); cbn; trivial; tauto.
Qed.

Lemma div_fits (x y : num) : fits53 (div x y).
Proof.
  destruct x as [sx|sx| |sx mx ex], y as [sy|sy| |sy my ey]; cbn; trivial.
  unfold SFdiv_core_binary.
  set (m' := match _ with 0 => _ | Zpos _ => _ | Zneg _ => _ end).
  assert (Hm : 0 <= m').
  { subst m'. destruct (_ - _ - _); [lia | apply Z.shiftl_nonneg; lia | lia]. }
  destruct (Z.div_eucl m' (Zpos my)) as [q r] eqn:E.
  assert (Hq : q = m' / Zpos my) by (unfold Z.div; now rewrite E).
  assert (0 <= q) by (subst q; apply Z.div_pos; lia).
  match goal with |- context [binary_round_aux _ _ ?s ?m ?e ?l] =>
    pose proof (binary_round_aux_bounded s m e l ltac:(trivial)) as H';
    destruct (binary_round_aux _ _ s m e l) end; cbn; trivial; tauto.
Qed.

Lemma dec_value_fits (m : N) (e : Z) : fits53 (dec_value m e).
Proof.
  unfold dec_value. destruct m as [|p]; [exact I|].
  destruct (0 <=? e); [apply binary_normalize_fits | apply div_fits].
Qed.

Lemma parse_unsigned_fits (s : jsstring) : fits53 (parse_unsigned s).
Proof.
  unfold parse_unsigned. destruct (decide _); [exact I|].
  destruct (span is_digit s) as [ip r].
  match goal with |- context [let '(fp, r') := ?X in _] =>
    destruct X as [fp r'] end.
  destruct ip as [|? ?]; destruct fp as [|? ?]; try exact I;
    destruct (parse_exponent r'); try exact I; apply dec_value_fits.
Qed.

Lemma parse_nondecimal_fits (s : jsstring) (n : num) :
  parse_nondecimal s = Some n → fits53 n.
Proof.
  unfold parse_nondecimal.
  destruct s as [|c [|p ds]]; [discriminate| |];
    (destruct c as [|q]; [discriminate|]);
    repeat (destruct q as [q|q|]; try discriminate).
  match goal with |- context [match ?X with Some _ => _ | None => _ end] =>
    destruct X as [b|] end; [|discriminate].
  destruct ds as [|d ds]; [discriminate|].
  match goal with |- context [mapM ?f ?l] => destruct (mapM f l) end;
    [|discriminate].
  intros [= <-]. apply binary_normalize_fits.
Qed.

(** The mantissa of every finite Number that [Number(s)] yields fits the
    format. *)
Lemma StringToNumber_fits (s : jsstring) : fits53 (StringToNumber s).
Proof.
  unfold StringToNumber. destruct (trim s) as [|c r] eqn:E; [exact I|].
  destruct (parse_nondecimal (c :: r)) as [n|] eqn:En.
  - now apply parse_nondecimal_fits in En.
  - destruct (c =? 43)%N; [apply parse_unsigned_fits|].
    destruct (c =? 45)%N; [|apply parse_unsigned_fits].
    pose proof (parse_unsigned_fits r) as H.
    destruct (parse_unsigned r); cbn in *; trivial.
Qed.

(** Rounding a positive Number to the nearest integer gives a count. *)
Lemma Math_round_count (m : positive) (e : Z) :
  Zpos m < 2 ^ 53 → is_count (Math_round (S754_finite false m e)).
Proof.
  intros Hm. unfold Math_round. destruct (0 <=? e) eqn:E.
  - apply Z.leb_le in E. now left.
  - apply Z.leb_gt in E.
    assert (Hp : 2 <= 2 ^ (- e)).
    { change 2 with (2 ^ 1) at 1. apply Z.pow_le_mono_r; lia. }
    set (z := (2 * Zpos m + 2 ^ (- e)) / (2 * 2 ^ (- e))).
    assert (Hz : 0 <= z <= Zpos m).
    { subst z. split; [apply Z.div_pos; lia|].
      apply Z.div_le_upper_bound; [lia|]. nia. }
    destruct z as [|r|r] eqn:Ez; try lia; [exact I|].
    fold (num_of_Z (Zpos r)). rewrite num_of_pos_canonical by lia.
    destruct (canon_mant_value r ltac:(lia)) as (Hv & _ & _).
    right. rewrite Hv. apply Z_mod_mult.
Qed.

Lemma is_count_range (x : num) :
  is_count x → isFinite x = true ∧ ge x (dec 0 0) = true.
Proof. destruct x as [[]|[]| |[] m e]; cbn; try contradiction; auto. Qed.

(** X13.  The lot count of every title is a count: [+0] or a positive
    integer; it is never [NaN], an infinity, a negative Number or a
    fraction, however long or odd the numeral of the title is. *)
Theorem lot_count_is_count (title : jsstring) :
  let r := parseLotCountFromTitle title in
  is_count r ∧ isFinite r = true ∧ ge r (dec 0 0) = true.
Proof.
  cbn zeta. assert (H : is_count (parseLotCountFromTitle title)).
  2: { split; [exact H | now apply is_count_range]. }
  assert (H1 : is_count (dec 1 0)) by (right; reflexivity).
  unfold parseLotCountFromTitle.
  destruct (_ ≫= group 1) as [raw|]; [|exact H1].
  pose proof (StringToNumber_fits raw) as Hf.
  destruct (StringToNumber raw) as [s|s| |[] m e] eqn:En;
    try (cbn [isFinite negb orb]; exact H1).
  cbn [isFinite negb orb].
  change (le (S754_finite false m e) (dec 0 0)) with false. cbv iota.
  cbn in Hf.
  destruct (_ && _ && _) eqn:Eg; [|now apply Math_round_count].
  apply andb_prop in Eg as [_ Eg]. apply andb_prop in Eg as [Eg1 Eg2].
  pose proof (mul_nonneg (S754_finite false m e) (dec 100 0) I I) as Hm.
  destruct (mul _ _) as [s'|s'| |s' m' e']; try contradiction.
  - destruct s'; discriminate Eg1.
  - subst s'. discriminate Eg2.
  - destruct Hm as [-> Hm]. now apply Math_round_count.
Qed.

End LotRange.

(** *** Letter case in titles *)

Section LetterCase.

Lemma to_upper_idem (c : N) : to_upper (to_upper c) = to_upper c.
Proof. by_letter c. unfold is_lower. now decide_cmp. Qed.

Lemma is_space_up (c : N) : is_space (to_upper c) = is_space c.
Proof. by_letter c. unfold is_space. now decide_cmp. Qed.

Lemma is_digit_up (c : N) : is_digit (to_upper c) = is_digit c.
Proof. by_letter c. unfold is_digit. now decide_cmp. Qed.

Lemma is_word_up (c : N) : is_word (to_upper c) = is_word c.
Proof.
  by_letter c. unfold is_word, is_upper, is_lower, is_digit. now decide_cmp.
Qed.

Lemma chr_eqb_up (c x : N) : chr_eqb c (to_upper x) = chr_eqb c x.
Proof. unfold chr_eqb. now rewrite to_upper_idem. Qed.

Lemma at_boundary_up (s : mstate) :
  at_boundary (upcase_state s) = at_boundary s.
Proof.
  unfold at_boundary. destruct s as [[|b bs] [|a as_] cs]; cbn;
    now rewrite ?is_word_up.
Qed.

Lemma star_match_up (p : N → bool) (k k' : mstate → option mstate) :
  (∀ c, p (to_upper c) = p c) →
  (∀ s, k' (upcase_state s) = upcase_state <$> k s) →
  ∀ aft bef cs,
    star_match p k' (upcase bef) (upcase aft)
               (map (fun c => (fst c, upcase (snd c))) cs)
    = upcase_state <$> star_match p k bef aft cs.
Proof.
  intros Hp Hk. unfold upcase. induction aft as [|c aft IH]; intros bef cs.
  - cbn. apply (Hk (MState bef [] cs)).
  - cbn [map star_match]. rewrite Hp. destruct (p c).
    + specialize (IH (c :: bef) cs). cbn [map] in IH. rewrite IH.
      destruct (star_match p k (c :: bef) aft cs); [reflexivity|].
      apply (Hk (MState bef (c :: aft) cs)).
    + apply (Hk (MState bef (c :: aft) cs)).
Qed.

(** Matching the upper-cased text goes as matching the text. *)
Lemma rmatch_up (r : regex) :
  case_blind r →
  ∀ (k k' : mstate → option mstate),
    (∀ s, k' (upcase_state s) = upcase_state <$> k s) →
    ∀ s, rmatch r k' (upcase_state s) = upcase_state <$> rmatch r k s.
Proof.
  induction r as [|c|p| |r1 IH1 r2 IH2|p|r1 IH1|i r1 IH1];
    intros Hb k k' Hk s; cbn [rmatch].
  - apply Hk.
  - destruct s as [bef [|x aft] cs]; [reflexivity|]. cbn.
    rewrite chr_eqb_up. destruct (chr_eqb c x); [|reflexivity].
    apply (Hk (MState (x :: bef) aft cs)).
  - destruct s as [bef [|x aft] cs]; [reflexivity|]. cbn.
    cbn in Hb. rewrite Hb. destruct (p x); [|reflexivity].
    apply (Hk (MState (x :: bef) aft cs)).
  - rewrite at_boundary_up. destruct (at_boundary s); [apply Hk|reflexivity].
  - destruct Hb as [Hb1 Hb2]. apply IH1; trivial.
    intros s1. now apply IH2.
  - destruct s as [bef aft cs]. now apply star_match_up.
  - rewrite (IH1 Hb (fun s' =>
        if (length (after s') =? length (after s))%nat then None else k s')).
    + destruct (rmatch r1 _ s); [reflexivity | apply Hk].
    + intros s1. cbn. unfold upcase. rewrite !length_map.
      destruct (_ =? _)%nat; [reflexivity | apply Hk].
  - apply (IH1 Hb). intros s1.
    specialize (Hk (MState (before s1) (after s1)
      ((i, take (length (after s) - length (after s1)) (after s)) :: caps s1))).
    cbn in *. unfold upcase in *. rewrite !length_map.
    rewrite <- Hk. unfold upcase_state. cbn. unfold upcase.
    now rewrite <- fmap_take.
Qed.

Lemma exec_from_up (r : regex) :
  case_blind r →
  ∀ aft bef, exec_from r (upcase bef) (upcase aft)
             = upcase_state <$> exec_from r bef aft.
Proof.
  intros Hb.
  assert (H : ∀ bef aft,
    rmatch r Some (MState (map to_upper bef) (map to_upper aft) [])
    = upcase_state <$> rmatch r Some (MState bef aft [])).
  { intros bef aft.
    apply (rmatch_up r Hb Some Some (fun _ => eq_refl) (MState bef aft [])). }
  unfold upcase.
  induction aft as [|c aft IH]; intros bef; cbn [map exec_from].
  - pose proof (H bef []) as H0. cbn [map] in H0. rewrite H0. clear H0.
    now destruct (rmatch r Some _).
  - pose proof (H bef (c :: aft)) as H0. cbn [map] in H0. rewrite H0.
    clear H0. destruct (rmatch r Some _); [reflexivity|]. apply (IH (c :: bef)).
Qed.

Lemma exec_up (r : regex) (t : jsstring) :
  case_blind r → exec r (upcase t) = upcase_state <$> exec r t.
Proof. intros Hb. apply (exec_from_up r Hb t []). Qed.

Lemma test_up (r : regex) (t : jsstring) :
  case_blind r → test r (upcase t) = test r t.
Proof.
  intros Hb. unfold test. rewrite exec_up by trivial.
  now destruct (exec r t).
Qed.

Lemma case_blind_cat (rs : list regex) :
  Forall case_blind rs → case_blind (cat rs).
Proof. induction 1; cbn; auto. Qed.

Lemma case_blind_lit (s : string) : case_blind (lit s).
Proof.
  unfold lit. apply case_blind_cat.
  induction (str s) as [|c l IH]; constructor; [exact I | exact IH].
Qed.

Lemma case_blind_word (s : string) : case_blind (word s).
Proof.
  unfold word. apply case_blind_cat.
  repeat constructor. apply case_blind_lit.
Qed.

Lemma trim_start_up (s : jsstring) :
  trim_start (upcase s) = upcase (trim_start s).
Proof.
  induction s as [|c s IH]; [reflexivity|]. cbn. rewrite is_space_up.
  now destruct (is_space c).
Qed.

Lemma collapse_ws_up (s : jsstring) :
  collapse_ws (upcase s) = upcase (collapse_ws s).
Proof.
  unfold upcase. induction s as [|c s IH]; [reflexivity|].
  cbn [map collapse_ws]. rewrite is_space_up.
  destruct (is_space c).
  - destruct s as [|c' s]; [reflexivity|]. cbn [map] in *.
    rewrite is_space_up.
    destruct (is_space c'); [exact IH|]. rewrite IH. reflexivity.
  - cbn [map]. now rewrite IH.
Qed.

Lemma normalize_up (s : jsstring) :
  normalize (upcase s) = upcase (normalize s).
Proof.
  unfold normalize, trim, trim_end. rewrite collapse_ws_up, trim_start_up.
  unfold upcase. rewrite <- map_rev.
  fold (upcase (rev (trim_start (collapse_ws s)))).
  rewrite trim_start_up. unfold upcase. now rewrite map_rev.
Qed.

Lemma extract_up (t : jsstring) : extract (upcase t) = extract t.
Proof.
  assert (Ht : case_blind re_tagTeam ∧ case_blind re_masterBall).
  { split; apply case_blind_cat; repeat constructor;
      try apply case_blind_lit; exact is_space_up. }
  destruct Ht as [Ht Hm].
  unfold extract. rewrite !test_up; trivial; apply case_blind_word.
Qed.

Lemma classify_up (title : jsstring) :
  classifyTitleGroup (upcase title) = classifyTitleGroup title.
Proof.
  unfold classifyTitleGroup. now rewrite normalize_up, extract_up.
Qed.

(** X14.  Titles that differ only in the case of ASCII letters get the
    same category: the classifier ignores letter case altogether. *)
Theorem classify_ignores_case (a b : jsstring) :
  same_up_to_case a b → classifyTitleGroup a = classifyTitleGroup b.
Proof.
  intros H. rewrite <- (classify_up a), <- (classify_up b).
  unfold same_up_to_case in H. now rewrite H.
Qed.

Lemma star_match_consumes (p : N → bool) (k : mstate → option mstate)
    (res : mstate) :
  ∀ aft bef cs, star_match p k bef aft cs = Some res →
    ∃ s' w, k s' = Some res ∧ aft = w ++ after s'
            ∧ Forall (fun c => p c = true) w ∧ caps s' = cs.
Proof.
  induction aft as [|c aft IH]; intros bef cs H; cbn [star_match] in H.
  - exists (MState bef [] cs), []. now repeat split.
  - destruct (p c) eqn:Ep.
    + destruct (star_match p k (c :: bef) aft cs) as [r|] eqn:Es.
      * injection H as ->. destruct (IH _ _ Es) as (s' & w & Hk & -> & Hw & Hc).
        exists s', (c :: w). repeat split; trivial. now constructor.
      * exists (MState bef (c :: aft) cs), []. now repeat split.
    + exists (MState bef (c :: aft) cs), []. now repeat split.
Qed.

(** A successful match hands to its continuation a state that is a suffix
    of the input; what lies between was consumed by the pattern, and the
    captures are words that the groups consumed. *)
Lemma rmatch_consumes (q : N → Prop) (r : regex) :
  captures_in q r →
  ∀ (k : mstate → option mstate) (s res : mstate),
    rmatch r k s = Some res →
    ∃ s' w, k s' = Some res ∧ after s = w ++ after s'
            ∧ Forall (eats r) w ∧ (caps_in q s → caps_in q s').
Proof.
  induction r as [|c|p| |r1 IH1 r2 IH2|p|r1 IH1|i r1 IH1];
    intros Hc k s res H; cbn [rmatch] in H.
  - exists s, []. now repeat split.
  - destruct s as [bef [|x aft] cs]; [discriminate H|]. cbn in H.
    destruct (chr_eqb c x) eqn:E; [|discriminate H].
    exists (MState (x :: bef) aft cs), [x]. repeat split; trivial.
    now repeat constructor.
  - destruct s as [bef [|x aft] cs]; [discriminate H|]. cbn in H.
    destruct (p x) eqn:E; [|discriminate H].
    exists (MState (x :: bef) aft cs), [x]. repeat split; trivial.
    now repeat constructor.
  - destruct (at_boundary s); [|discriminate H].
    exists s, []. now repeat split.
  - destruct Hc as [Hc1 Hc2].
    destruct (IH1 Hc1 _ _ _ H) as (s1 & w1 & H1 & E1 & F1 & C1).
    destruct (IH2 Hc2 _ _ _ H1) as (s2 & w2 & H2 & E2 & F2 & C2).
    exists s2, (w1 ++ w2). repeat split; trivial.
    + rewrite E1, E2. now rewrite <- app_assoc.
    + apply Forall_app. split; eapply Forall_impl; eauto; cbn; auto.
    + auto.
  - destruct s as [bef aft cs]. cbn in H.
    destruct (star_match_consumes p k res _ _ _ H) as (s' & w & Hk & E & F & C).
    exists s', w. repeat split; trivial.
    unfold caps_in. cbn. now rewrite C.
  - destruct (rmatch r1 _ s) as [r|] eqn:E1.
    + injection H as ->.
      destruct (IH1 Hc _ _ _ E1) as (s1 & w1 & H1 & E & F & C).
      destruct (_ =? _)%nat; [discriminate H1|].
      exists s1, w1. now repeat split.
    + exists s, []. now repeat split.
  - destruct Hc as [Hq Hc].
    destruct (IH1 Hc _ _ _ H) as (s1 & w1 & H1 & E & F & C).
    eexists _, w1. split; [exact H1|]. cbn [after caps]. repeat split; trivial.
    intros Hs. unfold caps_in. cbn [caps]. constructor; [|now apply C].
    cbn [snd]. rewrite E, length_app.
    replace (length w1 + length (after s1) - length (after s1))%nat
      with (length w1) by lia.
    rewrite take_app_length. eapply Forall_impl; eauto.
Qed.

Lemma group_in (q : N → Prop) (i : nat) (m : mstate) (raw : jsstring) :
  caps_in q m → group i m = Some raw → Forall q raw.
Proof.
  unfold caps_in, group. induction 1 as [|c cs Hc _ IH]; cbn; [discriminate|].
  destruct (_ =? _)%nat; [now intros [= <-] | exact IH].
Qed.

Lemma exec_from_captures (q : N → Prop) (r : regex) (m : mstate) :
  captures_in q r →
  ∀ aft bef, exec_from r bef aft = Some m → caps_in q m.
Proof.
  intros Hc.
  assert (H : ∀ bef aft, rmatch r Some (MState bef aft []) = Some m →
                caps_in q m).
  { intros bef aft E.
    destruct (rmatch_consumes q r Hc _ _ _ E) as (s' & w & [= ->] & _ & _ & C).
    apply C. constructor. }
  induction aft as [|c aft IH]; intros bef; cbn [exec_from];
    destruct (rmatch r Some _) eqn:E; try discriminate.
  - intros [= <-]. eapply H, E.
  - intros [= <-]. eapply H, E.
  - apply IH.
Qed.

Lemma numeral_captures :
  captures_in numeral_char re_lot_leading
  ∧ captures_in numeral_char re_lot_trailing.
Proof.
  assert (H : ∀ c, eats (cat [Cls is_digit; Star is_digit;
              Opt (cat [Chr 46; Cls is_digit; Opt (Cls is_digit)])]) c →
              numeral_char c).
  { cbn. unfold numeral_char, chr_eqb. intros c.
    assert (to_upper 46 = 46%N) as -> by reflexivity.
    intros [H|[H|[[H|[H|[H|[]]]]|[]]]]; auto.
    right. apply N.eqb_eq in H. revert H. unfold to_upper.
    destruct (is_lower c) eqn:E; [|auto].
    unfold is_lower in E. apply andb_prop in E as [E1 E2].
    apply N.leb_le in E1, E2. lia. }
  split; cbn; repeat split; trivial.
Qed.

Lemma upcase_numeral (raw : jsstring) :
  Forall numeral_char raw → upcase raw = raw.
Proof.
  induction 1 as [|c l Hc _ IH]; [reflexivity|].
  cbn. unfold upcase in IH. rewrite IH. f_equal.
  unfold to_upper. destruct (is_lower c) eqn:E; [|reflexivity].
  unfold is_lower in E. apply andb_prop in E as [E1 E2].
  apply N.leb_le in E1, E2. destruct Hc as [Hc| ->]; [|lia].
  unfold is_digit in Hc. apply andb_prop in Hc as [_ Hc].
  apply N.leb_le in Hc. lia.
Qed.

Lemma group_up (i : nat) (m : mstate) :
  group i (upcase_state m) = upcase <$> group i m.
Proof.
  unfold group, upcase_state. cbn [caps].
  induction (caps m) as [|c cs IH]; [reflexivity|]. cbn.
  destruct (_ =? _)%nat; [reflexivity | exact IH].
Qed.

Lemma lot_up (title : jsstring) :
  parseLotCountFromTitle (upcase title) = parseLotCountFromTitle title.
Proof.
  destruct numeral_captures as [Hc1 Hc2].
  assert (Hb : case_blind re_lot_leading ∧ case_blind re_lot_trailing).
  { split; apply case_blind_cat; repeat constructor;
      try apply case_blind_lit; cbn; auto using is_digit_up, is_space_up. }
  destruct Hb as [Hb1 Hb2].
  unfold parseLotCountFromTitle. rewrite normalize_up, !exec_up by trivial.
  set (t := normalize title).
  set (m := match exec re_lot_leading t with
            | Some m => Some m | None => exec re_lot_trailing t end).
  assert (Em : match upcase_state <$> exec re_lot_leading t with
               | Some m => Some m
               | None => upcase_state <$> exec re_lot_trailing t
               end = upcase_state <$> m).
  { subst m. now destruct (exec re_lot_leading t). }
  rewrite Em.
  assert (Hm : ∀ x, m = Some x → caps_in numeral_char x).
  { subst m. intros x. destruct (exec re_lot_leading t) eqn:E1.
    - intros [= <-]. eapply exec_from_captures; [exact Hc1 | exact E1].
    - intros E2. eapply exec_from_captures; [exact Hc2 | exact E2]. }
  destruct m as [x|]; [|reflexivity]. cbn [fmap option_fmap option_map mbind option_bind].
  rewrite group_up. destruct (group 1 x) as [raw|] eqn:Eg; [|reflexivity].
  cbn [fmap option_fmap option_map].
  rewrite (upcase_numeral raw); [reflexivity|].
  eapply group_in; [apply Hm; reflexivity | exact Eg].
Qed.

(** X15.  Titles that differ only in the case of ASCII letters get the
    same lot count: the numeral that is captured holds only digits and a
    full stop, which have no case. *)
Theorem lot_count_ignores_case (a b : jsstring) :
  same_up_to_case a b → parseLotCountFromTitle a = parseLotCountFromTitle b.
Proof.
  intros H. rewrite <- (lot_up a), <- (lot_up b).
  unfold same_up_to_case in H. now rewrite H.
Qed.

End LetterCase.

Lemma classify_ignores_case_witness :
  classifyTitleGroup (str "master ball holo")
  = classifyTitleGroup (str "MASTER Ball HOLO").
Proof.
  apply (classify_ignores_case (str "master ball holo")
           (str "MASTER Ball HOLO")).
  vm_compute. reflexivity.
Defined.

Lemma lot_count_ignores_case_witness :
  parseLotCountFromTitle (str "1.50 lot mix")
  = parseLotCountFromTitle (str "1.50 LOT Mix").
Proof.
  apply (lot_count_ignores_case (str "1.50 lot mix") (str "1.50 LOT Mix")).
  vm_compute. reflexivity.
Defined.

(** *** Headers of the sheet *)

Section Headers.

Lemma normKeys_snoc (keys : list jsstring) (k : jsstring) :
  normKeys (keys ++ [k]) = <[normHeader k := k]> (normKeys keys).
Proof. unfold normKeys. now rewrite fold_left_app. Qed.

Lemma normKeys_sound (keys : list jsstring) (n k : jsstring) :
  normKeys keys !! n = Some k → In k keys ∧ normHeader k = n.
Proof.
  induction keys as [|x keys IH] using rev_ind.
  - intros H. discriminate H.
  - rewrite normKeys_snoc. intros H.
    destruct (decide (normHeader x = n)) as [E|E].
    + rewrite <- E, lookup_insert_eq in H. injection H as <-.
      split; [apply in_or_app; right; now left | exact E].
    + rewrite lookup_insert_ne in H by exact E.
      destruct (IH H) as [Hi Hn]. split; [apply in_or_app; now left | exact Hn].
Qed.

Lemma normKeys_complete (keys : list jsstring) (k : jsstring) :
  In k keys → ∃ k', normKeys keys !! normHeader k = Some k'.
Proof.
  induction keys as [|x keys IH] using rev_ind; [intros []|].
  rewrite normKeys_snoc. intros H.
  destruct (decide (normHeader x = normHeader k)) as [E|E].
  - exists x. rewrite <- E. apply lookup_insert_eq.
  - rewrite lookup_insert_ne by exact E. apply IH.
    apply in_app_or in H as [H|[H|[]]]; [exact H|]. now subst x.
Qed.

(** X16.  On a sheet without an empty header, the column that [pickKey]
    returns is a column of the sheet whose normalized header is that of
    the first candidate that names a column at all; the result is empty
    exactly when no candidate names a column. *)
Theorem pickKey_first_candidate (keys candidates : list jsstring) :
  ¬ In [] keys →
  let k := pickKey keys candidates in
  (k = [] ↔ ∀ c x, In c candidates → In x keys → normHeader x ≠ normHeader c)
  ∧ (k ≠ [] →
     In k keys
     ∧ ∃ pre c post, candidates = pre ++ c :: post
         ∧ normHeader k = normHeader c
         ∧ ∀ c' x, In c' pre → In x keys → normHeader x ≠ normHeader c').
Proof.
  intros Hne. cbn zeta. unfold pickKey.
  induction candidates as [|c cs IH]; cbn [pick].
  - split; [|congruence]. split; [intros _ c x []|reflexivity].
  - destruct (normKeys keys !! normHeader c) as [k|] eqn:E.
    + destruct (normKeys_sound _ _ _ E) as [Hi Hn].
      destruct k as [|x k]; [contradiction|].
      split.
      * split; [discriminate|]. intros H. exfalso.
        apply (H c (x :: k)); trivial. now left.
      * intros _. split; [exact Hi|].
        exists [], c, cs. repeat split; trivial. intros c' y [].
    + assert (Hc : ∀ x, In x keys → normHeader x ≠ normHeader c).
      { intros x Hx Ex. destruct (normKeys_complete keys x Hx) as [k' Hk'].
        rewrite Ex in Hk'. pose proof (eq_trans (eq_sym E) Hk') as X.
        discriminate X. }
      destruct IH as [IH1 IH2]. split.
      * rewrite IH1. split.
        -- intros H c' x [<-|Hc'] Hx; [now apply Hc | now apply H].
        -- intros H c' x Hc' Hx. apply H; trivial. now right.
      * intros Hk. destruct (IH2 Hk) as (Hi & pre & c0 & post & -> & Hn & Hp).
        split; [exact Hi|]. exists (c :: pre), c0, post.
        repeat split; trivial.
        intros c' x [<-|Hc'] Hx; [now apply Hc | now apply Hp].
Qed.

Lemma replace_char_absent (c : N) (by_ s : jsstring) :
  forallb (fun x => negb (x =? c)%N) s = true → replace_char c by_ s = s.
Proof.
  unfold replace_char. induction s as [|x s IH]; [trivial|].
  cbn [flat_map forallb]. intros H. apply andb_prop in H as [Hx Hs].
  rewrite (IH Hs). apply negb_true_iff in Hx. now rewrite Hx.
Qed.

Lemma filter_clean (p q : N → bool) (s : jsstring) :
  forallb q s = true → forallb q (List.filter p s) = true.
Proof.
  induction s as [|x s IH]; [trivial|]. cbn. intros H.
  apply andb_prop in H as [Hx Hs]. destruct (p x); cbn; rewrite ?Hx; auto.
Qed.

Lemma filter_self (p : N → bool) (s : jsstring) :
  forallb p (List.filter p s) = true.
Proof.
  induction s as [|x s IH]; [trivial|]. cbn.
  destruct (p x) eqn:E; cbn; rewrite ?E; auto.
Qed.

Lemma filter_all (p : N → bool) (s : jsstring) :
  forallb p s = true → List.filter p s = s.
Proof.
  induction s as [|x s IH]; [trivial|]. cbn. intros H.
  apply andb_prop in H as [Hx Hs]. now rewrite Hx, IH.
Qed.

Lemma replace_char_puts (c : N) (by_ s : jsstring) (p : N → bool) :
  forallb p by_ = true →
  forallb (fun x => negb (x =? c)%N && p x || (x =? c)%N) s = true →
  forallb p (replace_char c by_ s) = true.
Proof.
  intros Hb. unfold replace_char. induction s as [|x s IH]; [trivial|].
  cbn [flat_map forallb]. intros H. apply andb_prop in H as [Hx Hs].
  rewrite forallb_app, (IH Hs), andb_true_r.
  destruct (x =? c)%N; [exact Hb | cbn in *; now rewrite andb_true_r, orb_false_r in *].
Qed.

Lemma forallb_weaken (p q : N → bool) (s : jsstring) :
  (∀ x, p x = true → q x = true) → forallb p s = true → forallb q s = true.
Proof.
  intros H. induction s as [|x s IH]; [trivial|]. cbn. intros Hs.
  apply andb_prop in Hs as [Hx Hs]. now rewrite (H x Hx), IH.
Qed.

Lemma trim_start_clean (s : jsstring) :
  forallb (fun c => negb (is_space c)) s = true → trim_start s = s.
Proof.
  destruct s as [|x s]; [trivial|]. cbn. intros H.
  apply andb_prop in H as [Hx _]. apply negb_true_iff in Hx. now rewrite Hx.
Qed.

Lemma trim_clean (s : jsstring) :
  forallb (fun c => negb (is_space c)) s = true → trim s = s.
Proof.
  intros H. unfold trim, trim_end. rewrite (trim_start_clean s H).
  rewrite trim_start_clean; [apply rev_involutive|].
  rewrite forallb_forall in *. intros x Hx. apply H. now apply in_rev.
Qed.

(** X17.  A normalized header holds no white space, bracket, dollar or
    yen sign, and normalizing it again changes nothing. *)
Theorem normHeader_canonical (h : jsstring) :
  forallb (fun c => negb (header_noise c)) (normHeader h) = true
  ∧ normHeader (normHeader h) = normHeader h.
Proof.
  assert (H : forallb (fun c => negb (header_noise c)) (normHeader h) = true).
  { unfold normHeader.
    apply replace_char_puts; [reflexivity|].
    apply replace_char_puts; [reflexivity|].
    set (s := List.filter _ (trim h)).
    assert (Hs : forallb (fun c => negb (is_space c)) s = true)
      by apply filter_self.
    assert (Hb : forallb (fun c => negb (is_bracket c))
                  (List.filter (fun c => negb (is_bracket c)) s) = true)
      by apply filter_self.
    pose proof (filter_clean (fun c => negb (is_bracket c)) _ s Hs) as Hs'.
    rewrite forallb_forall in *. intros x Hx.
    specialize (Hb x Hx). specialize (Hs' x Hx). unfold header_noise.
    apply negb_true_iff in Hb, Hs'. rewrite Hb, Hs'. cbn.
    destruct (x =? 36)%N eqn:E1; cbn.
    - apply N.eqb_eq in E1. now subst x.
    - destruct (x =? 165)%N; reflexivity. }
  split; [exact H|].
  set (n := normHeader h) in *.
  assert (Hq : ∀ q : N → bool,
    (∀ x, negb (header_noise x) = true → q x = true) → forallb q n = true).
  { intros q Hq. revert H. now apply forallb_weaken. }
  assert (H1 : forallb (fun c => negb (is_space c)) n = true).
  { apply Hq. intros x Hx. unfold header_noise in Hx.
    now destruct (is_space x). }
  assert (H2 : forallb (fun c => negb (is_bracket c)) n = true).
  { apply Hq. intros x Hx. unfold header_noise in Hx.
    destruct (is_bracket x); [|reflexivity].
    now rewrite orb_true_r in Hx. }
  assert (H3 : forallb (fun x => negb (x =? 36)%N) n = true).
  { apply Hq. intros x Hx. unfold header_noise in Hx.
    destruct (x =? 36)%N; [|reflexivity].
    now rewrite orb_true_r in Hx. }
  assert (H4 : forallb (fun x => negb (x =? 165)%N) n = true).
  { apply Hq. intros x Hx. unfold header_noise in Hx.
    destruct (x =? 165)%N; [|reflexivity].
    now rewrite orb_true_r in Hx. }
  unfold normHeader.
  rewrite (trim_clean n H1), (filter_all _ n H1), (filter_all _ n H2).
  now rewrite (replace_char_absent 36 _ n H3), (replace_char_absent 165 _ n H4).
Qed.

End Headers.

Lemma pickKey_first_candidate_witness :
  let keys := [str "Title"; str " SKU (USD) "] in
  In (pickKey keys [str "sku"; str "SKU($)"]) keys.
Proof.
  intros keys.
  apply (proj2 (pickKey_first_candidate keys [str "sku"; str "SKU($)"]
                  ltac:(intros [H|[H|[]]]; discriminate H))).
  vm_compute. discriminate.
Defined.

(** *** The reducer of the filters *)

Section Reducer.

Import PageFilters.

Lemma SFcompare_opp (x y : num) :
  SFcompare y x = CompOpp <$> SFcompare x y.
Proof.
  destruct x as [sx|sx| |sx mx ex], y as [sy|sy| |sy my ey]; cbn;
    try reflexivity;
    try (destruct sx; reflexivity); try (destruct sy; reflexivity);
    try (destruct sx, sy; reflexivity).
  change (Pos.compare_cont Eq my mx) with (my ?= mx)%positive.
  change (Pos.compare_cont Eq mx my) with (mx ?= my)%positive.
  rewrite (Z.compare_antisym ex ey), (Pos.compare_antisym mx my).
  destruct sx, sy; cbn; try reflexivity;
    destruct (ex ?= ey); cbn; try reflexivity;
    destruct (mx ?= my)%positive; reflexivity.
Qed.

(** [x <= y] excludes [y < x]. *)
Lemma le_not_lt (x y : num) : le x y = true → lt y x = false.
Proof.
  unfold le, lt, SFleb, SFltb. rewrite (SFcompare_opp x y).
  destruct (SFcompare x y) as [[]|]; cbn; congruence.
Qed.

(** [Math.max(1, p)] is 1 or more, or [NaN]. *)
Lemma Math_max_1 (p : num) : page_ok (Math_max (dec 1 0) p).
Proof.
  unfold Math_max, page_ok.
  destruct (SFcompare (dec 1 0) p) as [[]|] eqn:E.
  - left. reflexivity.
  - left. unfold le, SFleb. now rewrite E.
  - left. reflexivity.
  - right. reflexivity.
Qed.

(** X18.  Along every run of the reducer on actions that the controls of
    the page send, the page number stays 1 or more (or [NaN], which only a
    [setPage] of [NaN] produces): it is never 0, negative or below 1; and
    every such action other than [setPage] (a change of a filter, of the
    sorting or of the page size, or a reset) returns to page 1. *)
Theorem filters_page_never_below_one
    (actions : list FiltersAction) (s : FiltersState) :
  page_ok (page s) →
  Forall sent_by_page actions →
  page_ok (page (fold_left filtersReducer actions s))
  ∧ lt (page (fold_left filtersReducer actions s)) (dec 1 0) = false
  ∧ (∀ a, sent_by_page a → (∀ p, a ≠ setPage p) →
          page (filtersReducer s a) = dec 1 0).
Proof.
  intros Hs Ha.
  assert (H : page_ok (page (fold_left filtersReducer actions s))).
  { revert s Hs. induction Ha as [|a l Ha _ IH]; intros s Hs; [exact Hs|].
    cbn [fold_left]. apply IH.
    destruct a as [k v|[] v| |p]; try contradiction;
      try (left; reflexivity).
    cbn. apply Math_max_1. }
  split; [exact H|]. split.
  - destruct H as [H | ->]; [now apply le_not_lt | reflexivity].
  - intros a Hp Hn.
    destruct a as [k v|[] v| |p]; try contradiction; try reflexivity.
    now contradiction (Hn p).
Qed.

End Reducer.

Lemma filters_page_never_below_one_witness :
  lt (PageFilters.page
        (fold_left PageFilters.filtersReducer
           [PageFilters.setPage (dec 0 0);
            PageFilters.set_text PageFilters.k_q (str "holo");
            PageFilters.setPage NaN;
            PageFilters.setPage (dec 3 0)]
           PageFilters.initialFilters))
     (dec 1 0) = false.
Proof.
  apply (proj1 (proj2 (filters_page_never_below_one
                  [PageFilters.setPage (dec 0 0);
                   PageFilters.set_text PageFilters.k_q (str "holo");
                   PageFilters.setPage NaN;
                   PageFilters.setPage (dec 3 0)]
                  PageFilters.initialFilters (or_introl eq_refl)
                  ltac:(repeat constructor)))).
Defined.

(** *** Reading cells, in both revisions *)

Section Cells.

(** X19.  [toNumber] never fails, and whatever the cell holds (nothing, a
    Number, any text) its result is a finite Number, in the page and in
    the sibling revision: no [NaN] or infinity enters the sums. *)
Theorem toNumber_always_finite (v : cell) :
  isFinite (toNumber v) = true ∧ isFinite (Part000.toNumber v) = true.
Proof. split; [apply toNumber_finite | apply part000_toNumber_finite]. Qed.

End Cells.

(** *** The sibling revision: loading and labels *)

Section Sibling.

(** X20.  In the sibling revision the stored document is merged over the
    defaults: after loading, a category has the value of the document if
    the document has it and its default otherwise, so every default
    category is present; the page itself reads the document only. *)
Theorem part000_load_merges (doc : gmap string num) (g : string) :
  Part000.costMap_loaded (Some doc) !! g
  = match doc !! g with
    | Some v => Some v
    | None => Part000.COST_DEFAULTS !! g
    end
  ∧ (is_Some (Part000.COST_DEFAULTS !! g) →
     is_Some (Part000.costMap_loaded (Some doc) !! g))
  ∧ costMap_loaded (Some doc) !! g = doc !! g.
Proof.
  assert (E : Part000.costMap_loaded (Some doc) !! g
              = match doc !! g with
                | Some v => Some v
                | None => Part000.COST_DEFAULTS !! g
                end).
  { unfold Part000.costMap_loaded. rewrite lookup_union.
    destruct (doc !! g), (Part000.COST_DEFAULTS !! g); reflexivity. }
  split; [exact E|]. split; [|reflexivity].
  rewrite E. destruct (doc !! g); eauto.
Qed.

Lemma part000_classify_in_labels (title : jsstring) :
  In (Part000.classifyTitleGroup title) part000_labels.
Proof.
  unfold Part000.classifyTitleGroup. cbv zeta.
  repeat match goal with
  | |- In (if ?b then _ else _) _ =>
      destruct b; [unfold part000_labels; cbn [In]; tauto|]
  end.
  unfold part000_labels; cbn [In]; tauto.
Qed.

(** X21.  Every label that the classifier of the sibling revision returns
    is a key of its default table, with a finite value. *)
Theorem part000_label_has_default (title : jsstring) :
  In (Part000.classifyTitleGroup title) part000_labels
  ∧ ∃ v, Part000.COST_DEFAULTS !! Part000.classifyTitleGroup title = Some v
         ∧ isFinite v = true.
Proof.
  split; [apply part000_classify_in_labels|].
  pose proof (part000_classify_in_labels title) as H.
  revert H. generalize (Part000.classifyTitleGroup title). intros g H.
  unfold part000_labels in H. cbn [In] in H.
  repeat (destruct H as [<- | H];
          [eexists; split; vm_compute; reflexivity|]).
  destruct H.
Qed.

End Sibling.

Lemma part000_load_merges_witness :
  is_Some (Part000.costMap_loaded (Some {[ "Mix" := dec 5 (-1) ]}) !! "OCD").
Proof.
  apply (proj1 (proj2 (part000_load_merges {[ "Mix" := dec 5 (-1) ]} "OCD"))).
  vm_compute. eauto.
Defined.

(** *** Titles that get the default results *)

Section Defaults.

Lemma captures_in_any (r : regex) : captures_in (fun _ => True) r.
Proof. induction r; cbn; auto. Qed.

Lemma rmatch_must_eat (p : N → Prop) (r : regex) :
  must_eat p r →
  ∀ (k : mstate → option mstate) (s res : mstate),
    rmatch r k s = Some res → Exists p (after s).
Proof.
  induction r as [|c|q| |r1 IH1 r2 IH2|q|r1 IH1|i r1 IH1];
    intros Hm k s res H; cbn [must_eat] in Hm; try contradiction;
    cbn [rmatch] in H.
  - destruct s as [bef [|x aft] cs]; [discriminate H|]. cbn in *.
    destruct (chr_eqb c x) eqn:E; [|discriminate H]. left. now apply Hm.
  - destruct s as [bef [|x aft] cs]; [discriminate H|]. cbn in *.
    destruct (q x) eqn:E; [|discriminate H]. left. now apply Hm.
  - destruct Hm as [Hm|Hm]; [now apply (IH1 Hm _ _ _ H)|].
    destruct (rmatch_consumes _ r1 (captures_in_any r1) _ _ _ H)
      as (s1 & w & H1 & E & _).
    rewrite E. apply Exists_app. right. now apply (IH2 Hm _ _ _ H1).
  - now apply (IH1 Hm _ _ _ H).
Qed.

Lemma exec_must_eat (p : N → Prop) (r : regex) (t : jsstring) (m : mstate) :
  must_eat p r → exec r t = Some m → Exists p t.
Proof.
  intros Hm. unfold exec. generalize (@nil N) as bef.
  induction t as [|c t IH]; intros bef; cbn [exec_from];
    destruct (rmatch r Some _) eqn:E.
  - intros _. apply (rmatch_must_eat p r Hm _ _ _ E).
  - discriminate.
  - intros _. apply (rmatch_must_eat p r Hm _ _ _ E).
  - intros H. right. now apply (IH _ H).
Qed.

Lemma test_without (p : N → Prop) (r : regex) (t : jsstring) :
  must_eat p r → Forall (fun c => ¬ p c) t → test r t = false.
Proof.
  intros Hm Hn. unfold test. destruct (exec r t) as [m|] eqn:E; [|reflexivity].
  apply (exec_must_eat p r t m Hm) in E.
  apply Exists_exists in E as (c & Hc & Hp).
  rewrite Forall_forall in Hn. now contradiction (Hn c Hc).
Qed.

(** What [normalize] keeps: code units of the title that are no white
    space, and U+0020. *)
Lemma trim_start_sub (s : jsstring) (c : N) :
  In c (trim_start s) → In c s.
Proof.
  induction s as [|x s IH]; cbn; [auto|].
  destruct (is_space x); [auto|]. cbn. auto.
Qed.

Lemma collapse_ws_sub (s : jsstring) (c : N) :
  In c (collapse_ws s) → c = 32%N ∨ In c s.
Proof.
  induction s as [|x s IH]; cbn [collapse_ws]; [intros []|].
  destruct (is_space x).
  - destruct s as [|y s]; [intros [<-|[]]; now left|].
    destruct (is_space y).
    + intros H. destruct (IH H) as [->|H']; [now left | right; now right].
    + intros [<-|H]; [now left|].
      destruct (IH H) as [->|H']; [now left | right; now right].
  - intros [<-|H]; [right; now left|].
    destruct (IH H) as [->|H']; [now left | right; now right].
Qed.

Lemma normalize_sub (title : jsstring) (c : N) :
  In c (normalize title) → c = 32%N ∨ In c title.
Proof.
  unfold normalize, trim, trim_end. intros H.
  apply in_rev, trim_start_sub, in_rev, trim_start_sub in H.
  now apply collapse_ws_sub.
Qed.

Lemma normalize_without (p : N → Prop) (title : jsstring) :
  ¬ p 32%N → Forall (fun c => ¬ p c) title →
  Forall (fun c => ¬ p c) (normalize title).
Proof.
  intros H32 H. rewrite List.Forall_forall in *. intros c Hc.
  apply normalize_sub in Hc as [->|Hc]; trivial. now apply H.
Qed.

Lemma exec_without (p : N → Prop) (r : regex) (t : jsstring) :
  must_eat p r → Forall (fun c => ¬ p c) t → exec r t = None.
Proof.
  intros Hm Hn. pose proof (test_without p r t Hm Hn) as H.
  unfold test in H. now destruct (exec r t).
Qed.

Lemma must_eat_lit (x : N) (s : string) (p : N → Prop) :
  (∀ c, chr_eqb x c = true → p c) → In x (str s) → must_eat p (lit s).
Proof.
  intros Hp. unfold lit. induction (str s) as [|y l IH]; [intros []|].
  intros [->|H]; cbn; [now left | right; now apply IH].
Qed.

Lemma chr_letter (x c : N) : chr_eqb x c = true → letter x c.
Proof. unfold chr_eqb, letter. apply N.eqb_eq. Qed.

(** X22.  A title that holds no ASCII digit, or that lacks one of the
    letters of the word lot (in either case), has the lot count 1. *)
Theorem lot_default_without_numeral (title : jsstring) :
  Forall (fun c => is_digit c = false) title
  ∨ (∃ x, In x (str "lot") ∧ Forall (fun c => ¬ letter x c) title) →
  parseLotCountFromTitle title = dec 1 0.
Proof.
  intros H.
  assert (E : exec re_lot_leading (normalize title) = None
              ∧ exec re_lot_trailing (normalize title) = None).
  { destruct H as [H | (x & Hx & H)].
    - assert (Hn : Forall (fun c => ¬ (is_digit c = true)) (normalize title)).
      { apply (normalize_without (fun c => is_digit c = true));
          [discriminate|].
        eapply Forall_impl; [exact H|]. cbn. intros c Hc. now rewrite Hc. }
      split; apply (exec_without (fun c => is_digit c = true)); trivial;
        cbn; tauto.
    - assert (Hn : Forall (fun c => ¬ letter x c) (normalize title)).
      { apply (normalize_without (letter x)); trivial.
        unfold letter. cbn in Hx.
        destruct Hx as [<-|[<-|[<-|[]]]]; vm_compute; discriminate. }
      assert (Hl : must_eat (letter x) (lit "lot")).
      { apply (must_eat_lit x); [apply chr_letter | exact Hx]. }
      split; apply (exec_without (letter x)); trivial.
      + right. right. right. now left.
      + right. now left. }
  destruct E as [E1 E2]. unfold parseLotCountFromTitle.
  now rewrite E1, E2.
Qed.

Lemma letter_is_letter (x c : N) : is_letter x → letter x c → is_letter c.
Proof.
  unfold is_letter, letter, to_upper, is_upper, is_lower.
  intros Hx H.
  destruct ((97 <=? c) && (c <=? 122))%N eqn:Ec; [now right|]. left.
  destruct ((97 <=? x) && (x <=? 122))%N eqn:Ex.
  - apply andb_prop in Ex as [E1 E2]. apply N.leb_le in E1, E2.
    apply andb_true_intro. split; apply N.leb_le; lia.
  - destruct Hx as [Hx|Hx]; [|discriminate Hx]. now subst c.
Qed.

Lemma must_eat_word (s : string) :
  Exists is_letter (str s) → must_eat is_letter (word s).
Proof.
  intros H. unfold word. right. left.
  apply List.Exists_exists in H as (x & Hx & Hl).
  apply (must_eat_lit x); [|exact Hx].
  intros c Hc. apply (letter_is_letter x); trivial. now apply chr_letter.
Qed.

(** X23.  A title without any ASCII letter is in the category Other: every
    rule of the classifier asks for a Latin word. *)
Theorem classify_without_letters (title : jsstring) :
  Forall (fun c => ¬ is_letter c) title →
  classifyTitleGroup title = "Other".
Proof.
  intros H.
  assert (Hn : Forall (fun c => ¬ is_letter c) (normalize title)).
  { apply (normalize_without is_letter); trivial.
    intros [E|E]; discriminate E. }
  assert (Hw : ∀ s, Exists is_letter (str s) →
                    test (word s) (normalize title) = false).
  { intros s Hs. apply (test_without is_letter); trivial.
    now apply must_eat_word. }
  assert (Ht : test re_tagTeam (normalize title) = false).
  { apply (test_without is_letter); trivial. right. left.
    apply (must_eat_lit 116); [|now left].
    intros c Hc. apply (letter_is_letter 116); [now right | now apply chr_letter]. }
  assert (Hm : test re_masterBall (normalize title) = false).
  { apply (test_without is_letter); trivial. right. left.
    apply (must_eat_lit 109); [|now left].
    intros c Hc. apply (letter_is_letter 109); [now right | now apply chr_letter]. }
  unfold classifyTitleGroup, extract. rewrite Ht, Hm.
  rewrite !Hw by (left; right; reflexivity).
  reflexivity.
Qed.

End Defaults.

Lemma lot_default_without_numeral_witness :
  parseLotCountFromTitle (str "Master Ball x12") = dec 1 0.
Proof.
  apply (lot_default_without_numeral (str "Master Ball x12")).
  right. exists 111%N. split; [right; now left|].
  repeat constructor; vm_compute; discriminate.
Defined.

Lemma classify_without_letters_witness :
  classifyTitleGroup [23453; 21487; 26790; 32; 49; 48; 48]%N = "Other".
Proof.
  apply (classify_without_letters [23453; 21487; 26790; 32; 49; 48; 48]%N).
  repeat constructor; intros [E|E]; discriminate E.
Defined.

(** *** Importing the sheet *)

Section ImportedRows.

Variable numberToString : num -> jsstring.
Variable excelDateToJSDate : cell -> option Z.

Abbreviation import := (mapRawRowsToRows numberToString excelDateToJSDate).

Lemma label_default (g : string) :
  In g label_names →
  ∃ v, COST_DEFAULTS !! g = Some v ∧ isFinite v = true
       ∧ costPerLotOfGroup COST_DEFAULTS g = v.
Proof.
  unfold costPerLotOfGroup, finite_or, label_names, rule_names.
  cbn [In app]. intros H.
  repeat (destruct H as [<- | H];
          [eexists; repeat split; vm_compute; reflexivity|]).
  destruct H.
Qed.

(** X24.  Importing a sheet gives one row per raw row, and every imported
    row has finite quantities and amounts and the category of its name,
    which is a key of the default cost table: on the default table and
    without overrides its unit cost is the default of the category, never
    the fallback 0 of a missing category. *)
Theorem import_rows_are_sound (raw : list RawRow) :
  length (import raw) = length raw
  ∧ ∀ r, In r (import raw) →
      isFinite (soldQty r) = true
      ∧ isFinite (gmvUsd r) = true
      ∧ isFinite (payoutCny r) = true
      ∧ titleGroup r = classifyTitleGroup (name r)
      ∧ ∃ v, COST_DEFAULTS !! titleGroup r = Some v
             ∧ isFinite v = true
             ∧ ∀ toISOString,
                 costPerLotForRow toISOString COST_DEFAULTS ∅ r = v.
Proof.
  unfold mapRawRowsToRows. destruct raw as [|sample raw']; [split; [reflexivity | intros r []]|].
  cbv zeta. split; [apply length_map|].
  intros r Hr. apply in_map_iff in Hr as (x & <- & _).
  cbn [soldQty gmvUsd payoutCny titleGroup name].
  unfold number_at. rewrite !toNumber_finite.
  split; [reflexivity|]. split; [reflexivity|]. split; [reflexivity|].
  split; [reflexivity|].
  destruct (label_default _ (classify_in_labels
              (text_at numberToString x
                 (pickKey (map fst sample) name_headers) [])))
    as (v & Hv & Hf & Hc).
  exists v. split; [exact Hv|]. split; [exact Hf|].
  intros tis. exact Hc.
Qed.

End ImportedRows.

(** *** The base rows and the views without filters *)

Section Base.

Variable toLowerCase : jsstring -> jsstring.
Variable localDate : num -> num -> num -> num -> num -> num -> num -> Date.
Variables getFullYear getMonth getDate : Date -> num.

Hypothesis toLowerCase_empty : toLowerCase [] = [].

Abbreviation base := (baseRows toLowerCase).

Lemma filter_all_true {A} (f : A -> bool) (l : list A) :
  (∀ a, f a = true) → List.filter f l = l.
Proof.
  intros H. induction l as [|a l IH]; cbn; [reflexivity|].
  now rewrite H, IH.
Qed.

(** X25.  The base rows are a sublist of the imported rows; when the
    filter state selects everything (as after a reset) the base rows, both
    aggregate views and the order list are all the rows. *)
Theorem unfiltered_views_show_all (rows : list Row)
    (f s : PageFilters.FiltersState) :
  sublist (base rows f) rows
  ∧ selects_all (PageFilters.filtersReducer s PageFilters.reset)
  ∧ (selects_all f →
     base rows f = rows
     ∧ paidRows localDate getFullYear getMonth getDate (base rows f)
                (dates_of f) = Some rows
     ∧ payoutRows localDate getFullYear getMonth getDate (base rows f)
                  (dates_of f) = Some rows
     ∧ listRows localDate getFullYear getMonth getDate (base rows f)
                (dates_of f) = Some rows).
Proof.
  split; [apply filter_sublist|].
  split; [repeat split; reflexivity|].
  intros (Hs & Hc & Hg & Hq & H1 & H2 & H3 & H4).
  assert (E : base rows f = rows).
  { unfold baseRows. rewrite Hq, toLowerCase_empty.
    apply filter_all_true. intros r. unfold keeps.
    rewrite Hs, Hc, Hg. rewrite !bool_decide_eq_true_2 by reflexivity.
    reflexivity. }
  rewrite E. unfold paidRows, payoutRows, listRows, dates_of. cbn.
  rewrite H1, H2, H3, H4. cbn. auto.
Qed.

End Base.

Lemma unfiltered_views_show_all_witness :
  let get : Date -> num := fun _ => dec 1 0 in
  listRows epoch_host get get get
    (baseRows (fun s => s) [paid_row; mix_row] PageFilters.initialFilters)
    (dates_of PageFilters.initialFilters)
  = Some [paid_row; mix_row].
Proof.
  intros get.
  pose proof (unfiltered_views_show_all (fun s => s) epoch_host get get get
                eq_refl [paid_row; mix_row] PageFilters.initialFilters
                PageFilters.initialFilters) as (_ & Hr & H).
  apply (H Hr).
Defined.

(** *** percentile for every p *)

Section PercentileEdges.

Lemma binary_normalize_neg (z : Z) :
  z < 0 → nonpos_shape (binary_normalize prec emax z 0 true).
Proof.
  intros Hz. destruct z as [|q|q]; try lia. cbn [binary_normalize].
  unfold binary_round. destruct (shl_align q 0 _) as [mz ez].
  pose proof (binary_round_aux_bounded true (Zpos mz) ez loc_Exact
                ltac:(lia)) as H.
  destruct (binary_round_aux _ _ _ _ _ _) as [s|s| |s m e]; cbn;
    try contradiction; trivial.
  - now subst s.
  - destruct H as [-> _]. exact I.
Qed.

Lemma floor_nonpos (x : num) : nonpos_shape x → nonpos_shape (Math_floor x).
Proof.
  destruct x as [s|[]| |[] m e]; cbn [nonpos_shape Math_floor];
    try contradiction; trivial.
  intros _. destruct (0 <=? e) eqn:E; [exact I|].
  apply Z.leb_gt in E. apply binary_normalize_neg. unfold floorZ.
  rewrite (proj2 (Z.leb_gt 0 e) E).
  assert (0 < 2 ^ (- e)) by (apply Z.pow_pos_nonneg; lia).
  apply Z.div_lt_upper_bound; lia.
Qed.

Lemma mul_neg (x : num) (m : positive) (e : Z) :
  nonneg_finite x → nonpos_shape (mul x (S754_finite true m e)).
Proof.
  destruct x as [s|s| |[] mx ex]; cbn; try contradiction; trivial.
  intros _.
  pose proof (binary_round_aux_bounded true (Zpos (mx * m)) (ex + e)
                loc_Exact ltac:(lia)) as H.
  destruct (binary_round_aux _ _ _ _ _ _) as [s|s| |s m' e']; cbn;
    try contradiction; trivial.
  - now subst s.
  - destruct H as [-> _]. exact I.
Qed.

Lemma max_zero_nonpos (x : num) :
  nonpos_shape x → Math_max (dec 0 0) x = dec 0 0.
Proof. destruct x as [[]|[]| |[] m e]; cbn; try contradiction; reflexivity. Qed.

(** For a negative [p] the index of [percentile] is 0. *)
Lemma percentile_idx_negative (n : nat) (m : positive) (e : Z) :
  (1 <= n)%nat → Z.of_nat n <= 2 ^ 53 →
  array_index (percentile_idx n (S754_finite true m e)) = Some 0%nat.
Proof.
  intros Hn Hb. unfold percentile_idx.
  assert (Hl : nonneg_finite (num_of_Z (Z.of_nat n - 1))).
  { destruct (Z.of_nat n - 1) as [|q|q] eqn:E; try lia; [exact I|].
    rewrite num_of_pos_canonical by lia. exact I. }
  rewrite (max_zero_nonpos _ (floor_nonpos _ (mul_neg _ m e Hl))).
  destruct (num_of_Z (Z.of_nat n - 1)) as [[]|s| |[] m' e'];
    try contradiction; reflexivity.
Qed.

Lemma percentile_idx_nan (n : nat) : array_index (percentile_idx n NaN) = None.
Proof.
  unfold percentile_idx.
  destruct (num_of_Z (Z.of_nat n - 1)) as [s|s| |s m e]; reflexivity.
Qed.

(** X26.  On a non-empty list, [percentile] returns an element of the list
    for every finite [p], also outside [0, 1]: a [p] above 1 cannot leave
    the list and a negative [p] gives the first element of the sorted
    copy; for [p = NaN] the result is [undefined]. *)
Theorem percentile_any_p (arr : list num) :
  arr ≠ [] → Z.of_nat (length arr) < 2 ^ 32 →
  let a := Array_sort ascending arr in
  (∀ p, isFinite p = true → ∃ x, percentile arr p = Some x ∧ In x arr)
  ∧ (∀ p, isFinite p = true → lt p (dec 0 0) = true →
          percentile arr p = a !! 0%nat)
  ∧ percentile arr NaN = None.
Proof.
  intros Hne Hlen a.
  assert (Hla : length a = length arr) by apply Array_sort_length.
  assert (Hn : (1 <= length arr)%nat).
  { destruct arr; [contradiction | cbn; lia]. }
  assert (Hp : ∀ p, percentile arr p
                   = (i ← array_index (percentile_idx (length arr) p); a !! i)).
  { intros p. unfold percentile. destruct arr as [|y arr']; [contradiction|].
    fold a. now rewrite Hla. }
  assert (Hneg : ∀ p, isFinite p = true → lt p (dec 0 0) = true →
                      percentile arr p = a !! 0%nat).
  { intros p Hf Hlt. rewrite Hp.
    destruct p as [s|s| |[] m e]; try discriminate.
    now rewrite percentile_idx_negative by lia. }
  split; [|split; [exact Hneg|]].
  - intros p Hf.
    assert (Hin : ∀ k x, a !! k = Some x → In x arr).
    { intros k x Hx. apply (Permutation_in x (Array_sort_perm ascending arr)).
      apply list_elem_of_In. now apply list_elem_of_lookup_2 in Hx. }
    destruct p as [s|s| |[] m e]; try discriminate.
    + destruct (percentile_idx_in_range (length arr) (S754_zero s) Hn
                  ltac:(lia) I) as (k & Hk & Hlt).
      destruct (sorted_lookup a k ltac:(lia)) as (x & Hx & _).
      exists x. rewrite Hp, Hk. split; [exact Hx | now apply (Hin k)].
    + destruct (sorted_lookup a 0%nat ltac:(lia)) as (x & Hx & _).
      exists x. rewrite (Hneg (S754_finite true m e) eq_refl eq_refl).
      split; [exact Hx | now apply (Hin 0%nat)].
    + destruct (percentile_idx_in_range (length arr) (S754_finite false m e)
                  Hn ltac:(lia) I) as (k & Hk & Hlt).
      destruct (sorted_lookup a k ltac:(lia)) as (x & Hx & _).
      exists x. rewrite Hp, Hk. split; [exact Hx | now apply (Hin k)].
  - rewrite Hp, percentile_idx_nan. reflexivity.
Qed.

End PercentileEdges.

Lemma percentile_any_p_witness :
  (∃ x, percentile (nums [5; 3; 1; 4; 2]) (dec 25 (-1)) = Some x
        ∧ In x (nums [5; 3; 1; 4; 2]))
  ∧ percentile (nums [5; 3; 1; 4; 2]) (SFopp (dec 25 (-1))) = Some (num_of_Z 1).
Proof.
  pose proof (percentile_any_p (nums [5; 3; 1; 4; 2]) ltac:(discriminate)
                ltac:(vm_compute; reflexivity)) as (H1 & H2 & _).
  split.
  - apply (H1 (dec 25 (-1)) eq_refl).
  - rewrite (H2 (SFopp (dec 25 (-1))) eq_refl eq_refl). vm_compute. reflexivity.
Defined.
